(** * PIL.ImageMath: the operand wrapper and the expression evaluator

    A shallow embedding of [src/PIL/ImageMath.py].  The module evaluates a
    Python-style expression over named images.  Two pieces of code are
    embedded here:

    - the class [_Operand] ([__fixup], [apply] and the operator methods),
      together with the [imagemath_*] helpers and the table [ops];
    - the function [eval]: validation of the binding names, construction of
      the namespace, the static [scan] of the compiled code and the call of
      the host's [builtins.eval].

    What the module imports is kept behind an interface: the image provider
    ([Image.new], [convert], [crop], [load]) and the C kernels of
    [_imagingmath] act on pixel buffers of an abstract type, see the class
    [Imaging].  The host language appears as a small expression language
    with Python's name resolution and operator dispatch. *)

From Stdlib Require Import ZArith String List Lia Bool.
From stdpp Require Import base option gmap strings list.

Set Warnings "-register-all".

Open Scope string_scope.
Open Scope Z_scope.

(** ** Exceptions and the evaluation monad *)

(** The exception classes that the module raises or lets through. *)
Inductive exn : Type :=
| ValueError (msg : string)
| TypeError (msg : string)
| NameError (msg : string)
| AttributeError (msg : string)
| RecursionError
| HostError (msg : string).

Inductive outcome (A : Type) : Type :=
| Ok (a : A)
| Raise (e : exn).
Arguments Ok {A} a.
Arguments Raise {A} e.

(** A computation threads a store of type [S]; an exception keeps the store
    it was raised in (nothing is rolled back). *)
Definition M (S A : Type) : Type := S -> outcome A * S.

Definition ret {S A} (a : A) : M S A := fun s => (Ok a, s).
Definition raise {S A} (e : exn) : M S A := fun s => (Raise e, s).
Definition bind {S A B} (m : M S A) (k : A -> M S B) : M S B :=
  fun s => match m s with
           | (Ok a, s') => k a s'
           | (Raise e, s') => (Raise e, s')
           end.
Definition lift {S A} (o : outcome A) : M S A := fun s => (o, s).
Definition get {S} : M S S := fun s => (Ok s, s).

Declare Scope py_scope.
Delimit Scope py_scope with py.
Notation "x <- m ;; k" := (bind m (fun x => k))
  (at level 100, m at next level, right associativity) : py_scope.
Open Scope py_scope.

(** ** Numbers, operators and expressions of the host language *)

(** A numeric constant: a Python [int], or a finite [float] written as
    mantissa and binary exponent. *)
Inductive num : Type :=
| NInt (z : Z)
| NFloat (m e : Z).

Inductive unaryop : Type := UAdd | USub | Invert.

Inductive binop : Type :=
| Add | Sub | Mult | Div | Mod | Pow
| BitAnd | BitOr | BitXor | LShift | RShift.

Inductive cmpop : Type := Eq | NotEq | Lt | LtE | Gt | GtE.

(** The expressions the evaluator is used with, as the host's parser
    delivers them: names, literals, operators, calls, attribute access and
    lambda (the construct that puts a nested code object into [co_consts]).
    [EName x] is a name node: [x] is an identifier.  The keywords [None],
    [True] and [False] are no identifiers and are not part of this
    fragment.  An expression that the parser delivers need not compile, see
    [compiles]. *)
Inductive expr : Type :=
| ENum (n : num)
| EStr (s : string)
| EName (x : string)
| EAttr (e : expr) (attr : string)
| EUnary (op : unaryop) (e : expr)
| EBinary (op : binop) (l r : expr)
| ECompare (op : cmpop) (l r : expr)
| ECall (f : expr) (args : list expr)
| ELambda (params : list string) (body : expr).

(** ** Images *)

Module Image.

(** An [Image.Image] as the module sees it: the identity of its core
    ([im.id], the slot of its pixel buffer in the store), its [mode] and
    its [size]. *)
Record t : Type := mk { id : nat; mode : string; size : Z * Z }.

End Image.

(** [_Operand.__init__]: the wrapper holds one image. *)
Record Operand : Type := _Operand { im : Image.t }.

(** The module-level helper functions that end up in [ops]. *)
Inductive function : Type :=
| Fn_int | Fn_float | Fn_equal | Fn_notequal | Fn_min | Fn_max | Fn_convert.

(** Run-time values. *)
Inductive value : Type :=
| VNum (n : num)
| VBool (b : bool)
| VStr (s : string)
| VImage (i : Image.t)                 (* an Image: it has the attribute im *)
| VCore (i : Image.t)                  (* image.im, the core of an Image *)
| VOperand (o : Operand)
| VFunction (f : function)
| VBuiltin (name : string)             (* builtins.<name> *)
| VDict (items : list (string * value))
| VLambda (params : list string) (body : expr) (closure : list (string * value)).

(** What a caller binds a name to: an image, a number, a boolean or a
  string. *)
Inductive pyobj : Type :=
| PImage (i : Image.t)
| PNum (n : num)
| PBool (b : bool)
| PStr (s : string).

Definition inject (p : pyobj) : value :=
match p with
| PImage i => VImage i
| PNum n => VNum n
| PBool b => VBool b
| PStr s => VStr s
end.

(** [isinstance(v, (int, float))]; [bool] is a subclass of [int]. *)
Definition as_number (v : value) : option num :=
match v with
| VNum n => Some n
| VBool b => Some (NInt (Z.b2z b))
| _ => None
end.

(** ** The imported collaborators *)

(** The pixel side of the image provider and of [_imagingmath], and the
  host's arithmetic on plain values.  Buffers are opaque: the module never
  looks inside one. *)
Class Imaging : Type := {
pixbuf : Type;
(** the buffer of [Image.new(mode, size, color)]; [None] is no colour *)
core_new : string -> Z * Z -> option num -> pixbuf;
(** the buffer of [image.convert(mode)] *)
core_convert : string -> Image.t -> pixbuf -> pixbuf;
(** the buffer of [image.crop(box)] *)
core_crop : Z * Z * Z * Z -> Image.t -> pixbuf -> pixbuf;
(** [hasattr(_imagingmath, name)] *)
imagingmath_has : string -> bool;
(** what a kernel writes into the output buffer *)
math_unop : string -> pixbuf -> pixbuf;
math_binop : string -> pixbuf -> pixbuf -> pixbuf;
(** operators, [abs] and calls of built-ins on values that are no operand *)
host_unary : unaryop -> value -> outcome value;
host_binary : binop -> value -> value -> outcome value;
host_compare : cmpop -> value -> value -> outcome value;
host_call : string -> list value -> outcome value;
(** the buffers and the log of kernel invocations that an evaluation leaves
    behind once it has gone beyond what is described here (a method of an
    image can change the image in place) *)
beyond : list pixbuf * list (string * nat * list nat) ->
         list pixbuf * list (string * nat * list nat)
}.

(** ** The store *)

Section Store.
Context `{Imaging}.

(** The pixel buffers of the live images, indexed by [im.id], and the log
    of the kernel invocations: kernel name, output id, input ids. *)
Record world : Type := World {
  heap : list pixbuf;
  calls : list (string * nat * list nat)
}.

(** Reading the buffer of an image.  An id outside the store does not
    occur for images made by the provider; it reads as an empty buffer. *)
Definition read (w : world) (i : nat) : pixbuf :=
  default (core_new "" (0, 0) None) (heap w !! i).

(** A new core: the next free slot of the store. *)
Definition alloc (b : pixbuf) : M world nat :=
  fun w => (Ok (length (heap w)),
            {| heap := heap w ++ [b]; calls := calls w |}).

End Store.

(** ** The kernel module [_imagingmath] *)

Module _imagingmath.
Section Kernels.
Context `{Imaging}.

(** [getattr(_imagingmath, name)]: the handle of a kernel is its name. *)
Definition getattr (name : string) : outcome string :=
  if imagingmath_has name then Ok name else Raise (AttributeError name).

(** [unop(op, out, im1)]: the kernel fills the buffer of [out] in place. *)
Definition unop (op : string) (out im1 : nat) : M world unit :=
  fun w => (Ok tt,
            {| heap := <[out := math_unop op (read w im1)]> (heap w);
               calls := calls w ++ [(op, out, [im1])] |}).

(** [binop(op, out, im1, im2)]. *)
Definition binop (op : string) (out im1 im2 : nat) : M world unit :=
  fun w => (Ok tt,
            {| heap := <[out := math_binop op (read w im1) (read w im2)]> (heap w);
               calls := calls w ++ [(op, out, [im1; im2])] |}).

End Kernels.
End _imagingmath.

(** ** The image provider *)

Section Provider.
Context `{Imaging}.

(** Modelled from the spec: [newImage(mode, size, fill) -> Image] of the
    image provider ([PIL.Image.new], not part of this module).  The new
    image has the mode and size asked for and a core of its own; the
    colour is absent or a number. *)
Definition Image_new (mode : string) (size : Z * Z) (color : option value)
  : M world Image.t :=
  match color with
  | None =>
      i <- alloc (core_new mode size None) ;;
      ret (Image.mk i mode size)
  | Some v =>
      match as_number v with
      | Some c =>
          i <- alloc (core_new mode size (Some c)) ;;
          ret (Image.mk i mode size)
      | None => raise (TypeError "color must be int or float")
      end
  end.

(** Modelled from the spec: [image.convert(mode) -> Image]
    ([PIL.Image.Image.convert]): a new image of the given mode and of the
    same size; the source image is left as it is. *)
Definition Image_convert (self : Image.t) (mode : string) : M world Image.t :=
  w <- get ;;
  i <- alloc (core_convert mode self (read w (Image.id self))) ;;
  ret (Image.mk i mode (Image.size self)).

(** Modelled from the spec: [image.crop(rect) -> Image]
    ([PIL.Image.Image.crop]): a new image of the same mode whose size is
    the extent of the box [(left, upper, right, lower)]. *)
Definition Image_crop (self : Image.t) (box : Z * Z * Z * Z) : M world Image.t :=
  let '(x0, y0, x1, y1) := box in
  w <- get ;;
  i <- alloc (core_crop box self (read w (Image.id self))) ;;
  ret (Image.mk i (Image.mode self) (x1 - x0, y1 - y0)).

(** Modelled from the spec: [image.load()]: the pixel data of an image in
    memory is already there. *)
Definition Image_load (self : Image.t) : M world unit := ret tt.

End Provider.

(** ** The class [_Operand] *)

Section OperandMethods.
Context `{Imaging}.

(** Python's [x in (a, b, ...)] on strings. *)
Definition member (x : string) (l : list string) : bool := bool_decide (x ∈ l).

(** Python's [mode or default]: [None] and the empty string are false. *)
Definition or_else (mode : option string) (default : string) : string :=
  match mode with
  | Some m => if bool_decide (m = "") then default else m
  | None => default
  end.

(** [_Operand.__fixup]: convert image to suitable mode. *)
Definition __fixup (self : Operand) (im1 : value) : M world Image.t :=
  match im1 with
  | VOperand im1 =>
      (* argument was an image. *)
      if member (Image.mode (im im1)) ["1"; "L"] then
        Image_convert (im im1) "I"
      else if member (Image.mode (im im1)) ["I"; "F"] then
        ret (im im1)
      else
        raise (ValueError ("unsupported mode: " +:+ Image.mode (im im1)))
  | _ =>
      (* argument was a constant *)
      if bool_decide (is_Some (as_number im1))
         && member (Image.mode (im self)) ["1"; "L"; "I"] then
        Image_new "I" (Image.size (im self)) (Some im1)
      else
        Image_new "F" (Image.size (im self)) (Some im1)
  end.

(** The [try: getattr(...) except AttributeError: raise TypeError] of
    [apply]. *)
Definition lookup_kernel (op mode : string) : M world string :=
  match _imagingmath.getattr (op +:+ "_" +:+ mode) with
  | Ok k => ret k
  | Raise _ => raise (TypeError ("bad operand type for '" +:+ op +:+ "'"))
  end.

(** [_Operand.apply]. *)
Definition apply (self : Operand) (op : string) (im1 : value)
    (im2 : option value) (mode : option string) : M world Operand :=
  im_1 <- __fixup self im1 ;;
  match im2 with
  | None =>
      (* unary operation *)
      out <- Image_new (or_else mode (Image.mode im_1)) (Image.size im_1) None ;;
      _ <- Image_load im_1 ;;
      op <- lookup_kernel op (Image.mode im_1) ;;
      _ <- _imagingmath.unop op (Image.id out) (Image.id im_1) ;;
      ret (_Operand out)
  | Some im2 =>
      (* binary operation *)
      im_2 <- __fixup self im2 ;;
      p <- (if bool_decide (Image.mode im_1 ≠ Image.mode im_2) then
              (* convert both arguments to floating point *)
              im_1 <- (if bool_decide (Image.mode im_1 ≠ "F")
                       then Image_convert im_1 "F" else ret im_1) ;;
              im_2 <- (if bool_decide (Image.mode im_2 ≠ "F")
                       then Image_convert im_2 "F" else ret im_2) ;;
              ret (im_1, im_2)
            else ret (im_1, im_2)) ;;
      let im_1 := fst p in
      let im_2 := snd p in
      p <- (if bool_decide (Image.size im_1 ≠ Image.size im_2) then
              (* crop both arguments to a common size *)
              let size :=
                (Z.min (fst (Image.size im_1)) (fst (Image.size im_2)),
                 Z.min (snd (Image.size im_1)) (snd (Image.size im_2))) in
              im_1 <- (if bool_decide (Image.size im_1 ≠ size)
                       then Image_crop im_1 (0, 0, fst size, snd size)
                       else ret im_1) ;;
              im_2 <- (if bool_decide (Image.size im_2 ≠ size)
                       then Image_crop im_2 (0, 0, fst size, snd size)
                       else ret im_2) ;;
              ret (im_1, im_2)
            else ret (im_1, im_2)) ;;
      let im_1 := fst p in
      let im_2 := snd p in
      out <- Image_new (or_else mode (Image.mode im_1)) (Image.size im_1) None ;;
      _ <- Image_load im_1 ;;
      _ <- Image_load im_2 ;;
      op <- lookup_kernel op (Image.mode im_1) ;;
      _ <- _imagingmath.binop op (Image.id out) (Image.id im_1) (Image.id im_2) ;;
      ret (_Operand out)
  end.

(** *** unary operators *)

Definition __abs__ (self : Operand) : M world Operand :=
  apply self "abs" (VOperand self) None None.

Definition __pos__ (self : Operand) : M world Operand :=
  ret self.

Definition __neg__ (self : Operand) : M world Operand :=
  apply self "neg" (VOperand self) None None.

(** *** binary operators *)

Definition __add__ (self : Operand) (other : value) : M world Operand :=
  apply self "add" (VOperand self) (Some other) None.

Definition __radd__ (self : Operand) (other : value) : M world Operand :=
  apply self "add" other (Some (VOperand self)) None.

Definition __sub__ (self : Operand) (other : value) : M world Operand :=
  apply self "sub" (VOperand self) (Some other) None.

Definition __rsub__ (self : Operand) (other : value) : M world Operand :=
  apply self "sub" other (Some (VOperand self)) None.

Definition __mul__ (self : Operand) (other : value) : M world Operand :=
  apply self "mul" (VOperand self) (Some other) None.

Definition __rmul__ (self : Operand) (other : value) : M world Operand :=
  apply self "mul" other (Some (VOperand self)) None.

Definition __truediv__ (self : Operand) (other : value) : M world Operand :=
  apply self "div" (VOperand self) (Some other) None.

Definition __rtruediv__ (self : Operand) (other : value) : M world Operand :=
  apply self "div" other (Some (VOperand self)) None.

Definition __mod__ (self : Operand) (other : value) : M world Operand :=
  apply self "mod" (VOperand self) (Some other) None.

Definition __rmod__ (self : Operand) (other : value) : M world Operand :=
  apply self "mod" other (Some (VOperand self)) None.

Definition __pow__ (self : Operand) (other : value) : M world Operand :=
  apply self "pow" (VOperand self) (Some other) None.

Definition __rpow__ (self : Operand) (other : value) : M world Operand :=
  apply self "pow" other (Some (VOperand self)) None.

(** *** bitwise *)

Definition __invert__ (self : Operand) : M world Operand :=
  apply self "invert" (VOperand self) None None.

Definition __and__ (self : Operand) (other : value) : M world Operand :=
  apply self "and" (VOperand self) (Some other) None.

Definition __rand__ (self : Operand) (other : value) : M world Operand :=
  apply self "and" other (Some (VOperand self)) None.

Definition __or__ (self : Operand) (other : value) : M world Operand :=
  apply self "or" (VOperand self) (Some other) None.

Definition __ror__ (self : Operand) (other : value) : M world Operand :=
  apply self "or" other (Some (VOperand self)) None.

Definition __xor__ (self : Operand) (other : value) : M world Operand :=
  apply self "xor" (VOperand self) (Some other) None.

Definition __rxor__ (self : Operand) (other : value) : M world Operand :=
  apply self "xor" other (Some (VOperand self)) None.

Definition __lshift__ (self : Operand) (other : value) : M world Operand :=
  apply self "lshift" (VOperand self) (Some other) None.

Definition __rshift__ (self : Operand) (other : value) : M world Operand :=
  apply self "rshift" (VOperand self) (Some other) None.

(** *** logical *)

Definition __eq__ (self : Operand) (other : value) : M world Operand :=
  apply self "eq" (VOperand self) (Some other) None.

Definition __ne__ (self : Operand) (other : value) : M world Operand :=
  apply self "ne" (VOperand self) (Some other) None.

Definition __lt__ (self : Operand) (other : value) : M world Operand :=
  apply self "lt" (VOperand self) (Some other) None.

Definition __le__ (self : Operand) (other : value) : M world Operand :=
  apply self "le" (VOperand self) (Some other) None.

Definition __gt__ (self : Operand) (other : value) : M world Operand :=
  apply self "gt" (VOperand self) (Some other) None.

Definition __ge__ (self : Operand) (other : value) : M world Operand :=
  apply self "ge" (VOperand self) (Some other) None.

(** *** conversions *)

Definition imagemath_int (self : Operand) : M world Operand :=
  i <- Image_convert (im self) "I" ;; ret (_Operand i).

Definition imagemath_float (self : Operand) : M world Operand :=
  i <- Image_convert (im self) "F" ;; ret (_Operand i).

(** *** logical *)

Definition imagemath_equal (self : Operand) (other : value) : M world Operand :=
  apply self "eq" (VOperand self) (Some other) (Some "I").

Definition imagemath_notequal (self : Operand) (other : value) : M world Operand :=
  apply self "ne" (VOperand self) (Some other) (Some "I").

Definition imagemath_min (self : Operand) (other : value) : M world Operand :=
  apply self "min" (VOperand self) (Some other) None.

Definition imagemath_max (self : Operand) (other : value) : M world Operand :=
  apply self "max" (VOperand self) (Some other) None.

Definition imagemath_convert (self : Operand) (mode : string) : M world Operand :=
  i <- Image_convert (im self) mode ;; ret (_Operand i).

End OperandMethods.

(** ** The table [ops] *)

(** The module's global functions at the point where [ops] is built.  The
    other globals (the imports and the class) do not start with
    [imagemath_] and are left out. *)
Definition module_globals : list (string * value) :=
  [ ("imagemath_int", VFunction Fn_int);
    ("imagemath_float", VFunction Fn_float);
    ("imagemath_equal", VFunction Fn_equal);
    ("imagemath_notequal", VFunction Fn_notequal);
    ("imagemath_min", VFunction Fn_min);
    ("imagemath_max", VFunction Fn_max);
    ("imagemath_convert", VFunction Fn_convert) ].

(** [for k, v in list(globals().items()): if k[:10] == "imagemath_":
    ops[k[10:]] = v]. *)
Definition ops : gmap string value :=
  foldl (fun (ops : gmap string value) (kv : string * value) =>
           let (k, v) := kv in
           if String.eqb (substring 0 10 k) "imagemath_"
           then <[substring 10 (String.length k - 10) k := v]> ops
           else ops)
        ∅ module_globals.

(** ** The host: built-in names, compilation, execution *)

(** The names of the module [builtins] (CPython 3.12, [dir(builtins)]). *)
Definition builtin_names : list string :=
  [ "ArithmeticError"; "AssertionError"; "AttributeError"; "BaseException";
    "BaseExceptionGroup"; "BlockingIOError"; "BrokenPipeError"; "BufferError";
    "BytesWarning"; "ChildProcessError"; "ConnectionAbortedError";
    "ConnectionError"; "ConnectionRefusedError"; "ConnectionResetError";
    "DeprecationWarning"; "EOFError"; "Ellipsis"; "EncodingWarning";
    "EnvironmentError"; "Exception"; "ExceptionGroup"; "False";
    "FileExistsError"; "FileNotFoundError"; "FloatingPointError";
    "FutureWarning"; "GeneratorExit"; "IOError"; "ImportError";
    "ImportWarning"; "IndentationError"; "IndexError"; "InterruptedError";
    "IsADirectoryError"; "KeyError"; "KeyboardInterrupt"; "LookupError";
    "MemoryError"; "ModuleNotFoundError"; "NameError"; "None";
    "NotADirectoryError"; "NotImplemented"; "NotImplementedError"; "OSError";
    "OverflowError"; "PendingDeprecationWarning"; "PermissionError";
    "ProcessLookupError"; "RecursionError"; "ReferenceError";
    "ResourceWarning"; "RuntimeError"; "RuntimeWarning";
    "StopAsyncIteration"; "StopIteration"; "SyntaxError"; "SyntaxWarning";
    "SystemError"; "SystemExit"; "TabError"; "TimeoutError"; "True";
    "TypeError"; "UnboundLocalError"; "UnicodeDecodeError";
    "UnicodeEncodeError"; "UnicodeError"; "UnicodeTranslateError";
    "UnicodeWarning"; "UserWarning"; "ValueError"; "Warning";
    "ZeroDivisionError"; "__build_class__"; "__debug__"; "__doc__";
    "__import__"; "__loader__"; "__name__"; "__package__"; "__spec__";
    "abs"; "aiter"; "all"; "anext"; "any"; "ascii"; "bin"; "bool";
    "breakpoint"; "bytearray"; "bytes"; "callable"; "chr"; "classmethod";
    "compile"; "complex"; "copyright"; "credits"; "delattr"; "dict"; "dir";
    "divmod"; "enumerate"; "eval"; "exec"; "exit"; "filter"; "float";
    "format"; "frozenset"; "getattr"; "globals"; "hasattr"; "hash"; "help";
    "hex"; "id"; "input"; "int"; "isinstance"; "issubclass"; "iter"; "len";
    "license"; "list"; "locals"; "map"; "max"; "memoryview"; "min"; "next";
    "object"; "oct"; "open"; "ord"; "pow"; "print"; "property"; "quit";
    "range"; "repr"; "reversed"; "round"; "set"; "setattr"; "slice";
    "sorted"; "staticmethod"; "str"; "sum"; "super"; "tuple"; "type";
    "vars"; "zip" ].

(** [hasattr(builtins, k)]. *)
Definition hasattr_builtins (k : string) : bool := member k builtin_names.

(** The dictionary of the module [builtins]. *)
Definition builtins_dict : list (string * value) :=
  map (fun k => (k, VBuiltin k)) builtin_names.

(** [s in k] on strings. *)
Fixpoint contains (s k : string) : bool :=
  String.prefix s k
  || match k with
     | EmptyString => false
     | String _ k' => contains s k'
     end.

(** Lookup in a dictionary given by its items. *)
Fixpoint assoc (items : list (string * value)) (x : string) : option value :=
  match items with
  | [] => None
  | (k, v) :: rest => if String.eqb k x then Some v else assoc rest x
  end.

(** A code object: the constants and the names its bytecode uses.  The
    code of a nested function is a constant of the enclosing code. *)
Inductive code : Type :=
| Code (co_consts : list const) (co_names : list string)
with const : Type :=
| KNum (n : num)
| KStr (s : string)
| KBool (b : bool)
| KCode (c : code).

Definition co_consts (c : code) : list const :=
  match c with Code ks _ => ks end.
Definition co_names (c : code) : list string :=
  match c with Code _ ns => ns end.

(** The value that the host's compiler puts in the place of the name
    [__debug__] (a host started without [-O]). *)
Definition debug_constant : bool := true.

(** [compile(expression, "<string>", "eval")], on the parsed expression.
    [co_names] receives the attribute names and the names that are not
    parameters of an enclosing lambda, [co_consts] the literals and the code
    of each lambda, both in evaluation order.  [bound] holds the parameters
    in scope.  The name [__debug__] is compiled to a constant: it is no name
    of the code, at any depth (as an attribute name it is a name like any
    other). *)
Fixpoint compile_in (bound : list string) (e : expr) : list const * list string :=
  match e with
  | ENum n => ([KNum n], [])
  | EStr s => ([KStr s], [])
  | EName x =>
      if String.eqb x "__debug__" then ([KBool debug_constant], [])
      else ([], if member x bound then [] else [x])
  | EAttr e attr =>
      let (ks, ns) := compile_in bound e in (ks, (ns ++ [attr])%list)
  | EUnary _ e => compile_in bound e
  | EBinary _ l r | ECompare _ l r =>
      let (ks1, ns1) := compile_in bound l in
      let (ks2, ns2) := compile_in bound r in
      ((ks1 ++ ks2)%list, (ns1 ++ ns2)%list)
  | ECall f args =>
      let (ks, ns) := compile_in bound f in
      let rs := List.map (compile_in bound) args in
      ((ks ++ concat (List.map fst rs))%list,
       (ns ++ concat (List.map snd rs))%list)
  | ELambda params body =>
      let (ks, ns) := compile_in (params ++ bound)%list body in
      ([KCode (Code ks ns)], [])
  end.

Definition compile (expression : expr) : code :=
  let (ks, ns) := compile_in [] expression in Code ks ns.

(** Whether the host's compiler accepts the expression.  In this fragment
    it refuses, with [SyntaxError], a lambda whose parameters are not
    distinct or one of whose parameters is [__debug__]; [compile] gives the
    code of the expressions it accepts. *)
Fixpoint compiles (e : expr) : bool :=
  match e with
  | ENum _ | EStr _ | EName _ => true
  | EAttr e _ | EUnary _ e => compiles e
  | EBinary _ l r | ECompare _ l r => compiles l && compiles r
  | ECall f args => compiles f && forallb compiles args
  | ELambda params body =>
      bool_decide (NoDup params) && negb (member "__debug__" params)
      && compiles body
  end.

(** Python bounds the depth of nested calls ([sys.getrecursionlimit()]). *)
Definition recursion_limit : nat := 1000.

(** A marker for behaviour of the host that is not described here. *)
Definition unmodelled : exn := HostError "outside the modelled fragment".

Section Evaluator.
Context `{Imaging}.

(** *** Operator dispatch of the host on operands *)

(** The special methods that [_Operand] defines, by operator. *)
Definition unary_method (op : unaryop) : Operand -> M world Operand :=
  match op with
  | UAdd => __pos__
  | USub => __neg__
  | Invert => __invert__
  end.

Definition binary_method (op : binop) : Operand -> value -> M world Operand :=
  match op with
  | Add => __add__
  | Sub => __sub__
  | Mult => __mul__
  | Div => __truediv__
  | Mod => __mod__
  | Pow => __pow__
  | BitAnd => __and__
  | BitOr => __or__
  | BitXor => __xor__
  | LShift => __lshift__
  | RShift => __rshift__
  end.

(** The reflected methods; the class has no [__rlshift__] and no
    [__rrshift__]. *)
Definition reflected_method (op : binop)
  : option (Operand -> value -> M world Operand) :=
  match op with
  | Add => Some __radd__
  | Sub => Some __rsub__
  | Mult => Some __rmul__
  | Div => Some __rtruediv__
  | Mod => Some __rmod__
  | Pow => Some __rpow__
  | BitAnd => Some __rand__
  | BitOr => Some __ror__
  | BitXor => Some __rxor__
  | LShift | RShift => None
  end.

Definition compare_method (op : cmpop) : Operand -> value -> M world Operand :=
  match op with
  | Eq => __eq__
  | NotEq => __ne__
  | Lt => __lt__
  | LtE => __le__
  | Gt => __gt__
  | GtE => __ge__
  end.

(** The comparison the host tries on the right operand when the left one
    does not know the right one's type. *)
Definition swapped (op : cmpop) : cmpop :=
  match op with
  | Eq => Eq
  | NotEq => NotEq
  | Lt => Gt
  | LtE => GtE
  | Gt => Lt
  | GtE => LtE
  end.

Definition symbol (op : binop) : string :=
  match op with
  | Add => "+" | Sub => "-" | Mult => "*" | Div => "/" | Mod => "%"
  | Pow => "**" | BitAnd => "&" | BitOr => "|" | BitXor => "^"
  | LShift => "<<" | RShift => ">>"
  end.

(** [op v]. *)
Definition unary (op : unaryop) (v : value) : M world value :=
  match v with
  | VOperand self => r <- unary_method op self ;; ret (VOperand r)
  | _ => lift (host_unary op v)
  end.

(** [a op b].  A left operand that is an [_Operand] answers itself.  A left
    operand of another type does not know [_Operand], so the host turns to
    the reflected method of the right operand, and raises [TypeError] when
    there is none; only [str % x] is answered by the string. *)
Definition binary (op : binop) (a b : value) : M world value :=
  match a, b with
  | VOperand self, _ => r <- binary_method op self b ;; ret (VOperand r)
  | VStr _, VOperand self =>
      match op with
      | Mod => lift (host_binary op a b)
      | _ =>
          match reflected_method op with
          | Some method => r <- method self a ;; ret (VOperand r)
          | None =>
              raise (TypeError ("unsupported operand type(s) for " +:+ symbol op))
          end
      end
  | VImage _, VOperand _ | VCore _, VOperand _ => lift (host_binary op a b)
  | _, VOperand self =>
      match reflected_method op with
      | Some method => r <- method self a ;; ret (VOperand r)
      | None =>
          raise (TypeError ("unsupported operand type(s) for " +:+ symbol op))
      end
  | _, _ => lift (host_binary op a b)
  end.

(** [a op b] for a comparison. *)
Definition compare (op : cmpop) (a b : value) : M world value :=
  match a, b with
  | VOperand self, _ => r <- compare_method op self b ;; ret (VOperand r)
  | VImage _, VOperand _ | VCore _, VOperand _ => lift (host_compare op a b)
  | _, VOperand self =>
      r <- compare_method (swapped op) self a ;; ret (VOperand r)
  | _, _ => lift (host_compare op a b)
  end.

(** [v.attr], for the attributes that the module itself reads: [im] of an
    operand and of an image (the [out.im] of [eval], the [self.im] of the
    helpers) and [mode].  Every other attribute belongs to the objects of
    the host and of the image provider, whose methods can do anything to an
    image, also change it in place; such an access is marked by the
    exception [unmodelled]. *)
Definition getattr_value (v : value) (attr : string) : outcome value :=
  match v with
  | VOperand o =>
      if String.eqb attr "im" then Ok (VImage (im o)) else Raise unmodelled
  | VImage i =>
      if String.eqb attr "im" then Ok (VCore i)
      else if String.eqb attr "mode" then Ok (VStr (Image.mode i))
      else Raise unmodelled
  | VCore _ =>
      if String.eqb attr "im" then Raise (AttributeError attr)
      else Raise unmodelled
  | _ =>
      if String.eqb attr "im" then Raise (AttributeError attr)
      else Raise unmodelled
  end.

(** The attribute access of an expression.  At an attribute that
    [getattr_value] marks as [unmodelled] the model stops: the evaluation
    ends with that exception, and the store it leaves is not the one it
    came with but whatever lies [beyond]. *)
Definition getattr (v : value) (attr : string) : M world value :=
  fun w =>
    match getattr_value v attr with
    | Raise (HostError msg) =>
        (Raise (HostError msg),
         let (h, c) := beyond (heap w, calls w) in World h c)
    | o => (o, w)
    end.

(** The receiver of a helper: the helpers read [self.im] or [self.apply].
    An image has an [im] too, its core, which the helpers are not meant
    for. *)
Definition receiver (v : value) (attr : string) : M world Operand :=
  match v with
  | VOperand o => ret o
  | VImage _ =>
      if String.eqb attr "im" then raise unmodelled
      else raise (AttributeError attr)
  | _ => raise (AttributeError attr)
  end.

(** Calling one of the functions of [ops]. *)
Definition call_function (f : function) (args : list value) : M world value :=
  match f, args with
  | Fn_int, [v] =>
      self <- receiver v "im" ;; r <- imagemath_int self ;; ret (VOperand r)
  | Fn_float, [v] =>
      self <- receiver v "im" ;; r <- imagemath_float self ;; ret (VOperand r)
  | Fn_equal, [v; other] =>
      self <- receiver v "apply" ;;
      r <- imagemath_equal self other ;; ret (VOperand r)
  | Fn_notequal, [v; other] =>
      self <- receiver v "apply" ;;
      r <- imagemath_notequal self other ;; ret (VOperand r)
  | Fn_min, [v; other] =>
      self <- receiver v "apply" ;;
      r <- imagemath_min self other ;; ret (VOperand r)
  | Fn_max, [v; other] =>
      self <- receiver v "apply" ;;
      r <- imagemath_max self other ;; ret (VOperand r)
  | Fn_convert, [v; mode] =>
      self <- receiver v "im" ;;
      match mode with
      | VStr mode => r <- imagemath_convert self mode ;; ret (VOperand r)
      | _ => raise (TypeError "mode must be a string")
      end
  | _, _ => raise (TypeError "wrong number of arguments")
  end.

(** Calling a built-in: [abs(x)] on an operand is [x.__abs__()]. *)
Definition call_builtin (name : string) (args : list value) : M world value :=
  match args with
  | [VOperand self] =>
      if String.eqb name "abs" then r <- __abs__ self ;; ret (VOperand r)
      else lift (host_call name args)
  | _ => lift (host_call name args)
  end.

(** *** Name resolution and execution *)

(** The frame of [builtins.eval]: the globals and the locals given. *)
Record frame : Type := Frame {
  f_globals : gmap string value;
  f_locals : gmap string value
}.

(** The built-ins of a frame are what its globals hold under
    [__builtins__]. *)
Definition f_builtins (fr : frame) : list (string * value) :=
  match f_globals fr !! "__builtins__" with
  | Some (VDict d) => d
  | _ => []
  end.

(** [LOAD_GLOBAL]: the globals, then the built-ins. *)
Definition load_global (fr : frame) (x : string) : outcome value :=
  match f_globals fr !! x with
  | Some v => Ok v
  | None =>
      match assoc (f_builtins fr) x with
      | Some v => Ok v
      | None => Raise (NameError x)
      end
  end.

(** [LOAD_NAME], used by the code of the expression itself: the locals
    first. *)
Definition load_name (fr : frame) (x : string) : outcome value :=
  match f_locals fr !! x with
  | Some v => Ok v
  | None => load_global fr x
  end.

(** Inside a lambda a name is a parameter (of this or of an enclosing
    lambda) or a global; the locals of the frame are not consulted. *)
Definition load_in_function (fr : frame) (env : list (string * value))
    (x : string) : outcome value :=
  match assoc env x with
  | Some v => Ok v
  | None => load_global fr x
  end.

(** Evaluation of an expression.  [scope] is [None] in the code of the
    expression itself and the parameters in scope inside a lambda; [depth]
    is the remaining call depth.  The name [__debug__] is the constant that
    the compiler has put in its place; no name is looked up for it. *)
Fixpoint exec (depth : nat) (fr : frame)
  : option (list (string * value)) -> expr -> M world value :=
  fix go (scope : option (list (string * value))) (e : expr) {struct e}
    : M world value :=
    match e with
    | ENum n => ret (VNum n)
    | EStr s => ret (VStr s)
    | EName x =>
        if String.eqb x "__debug__" then ret (VBool debug_constant)
        else
          match scope with
          | None => lift (load_name fr x)
          | Some env => lift (load_in_function fr env x)
          end
    | EAttr e attr => v <- go scope e ;; getattr v attr
    | EUnary op e => v <- go scope e ;; unary op v
    | EBinary op l r => a <- go scope l ;; b <- go scope r ;; binary op a b
    | ECompare op l r => a <- go scope l ;; b <- go scope r ;; compare op a b
    | ECall f args =>
        fv <- go scope f ;;
        vs <- (fix go_args (es : list expr) : M world (list value) :=
                 match es with
                 | [] => ret []
                 | a :: es' =>
                     v <- go scope a ;; vs <- go_args es' ;; ret (v :: vs)
                 end) args ;;
        match fv with
        | VFunction f => call_function f vs
        | VBuiltin name => call_builtin name vs
        | VLambda params body closure =>
            if bool_decide (length params = length vs) then
              match depth with
              | O => raise RecursionError
              | S depth' =>
                  exec depth' fr (Some (zip params vs ++ closure)%list) body
              end
            else raise (TypeError "wrong number of arguments")
        | _ => raise (TypeError "object is not callable")
        end
    | ELambda params body =>
        ret (VLambda params body (default [] scope))
    end.

(** [builtins.eval(expression, globals, locals)]: when the globals have no
    key [__builtins__], the host puts the dictionary of the module
    [builtins] there before the expression runs. *)
Definition builtins_eval (expression : expr)
    (globals locals : gmap string value) : M world value :=
  let globals :=
    match globals !! "__builtins__" with
    | Some _ => globals
    | None => <["__builtins__" := VDict builtins_dict]> globals
    end in
  exec recursion_limit (Frame globals locals) None expression.

(** ** The function [eval] *)

(** The loop over the keys of [_dict] and [kw]. *)
Fixpoint check_keys (keys : list string) : outcome unit :=
  match keys with
  | [] => Ok tt
  | k :: keys' =>
      if contains "__" k || hasattr_builtins k
      then Raise (ValueError ("'" +:+ k +:+ "' not allowed"))
      else check_keys keys'
  end.

(** [args.update(d)]. *)
Definition update (args : gmap string value) (d : list (string * pyobj))
  : gmap string value :=
  foldl (fun (a : gmap string value) (kv : string * pyobj) =>
           <[fst kv := inject (snd kv)]> a) args d.

(** [if hasattr(v, "im"): args[k] = _Operand(v)].  The values at this point
    are the functions of [ops] and the bindings of the caller. *)
Definition wrap (v : value) : value :=
  match v with
  | VImage i => VOperand (_Operand i)
  | _ => v
  end.

(** The nested function [scan] of [eval]; [args] is the namespace it closes
    over. *)
Fixpoint scan (args : gmap string value) (c : code) : outcome unit :=
  match c with
  | Code consts names =>
      match (fix scan_consts (ks : list const) : outcome unit :=
               match ks with
               | [] => Ok tt
               | KCode c' :: ks' =>
                   match scan args c' with
                   | Ok _ => scan_consts ks'
                   | Raise e => Raise e
                   end
               | _ :: ks' => scan_consts ks'
               end) consts with
      | Raise e => Raise e
      | Ok _ =>
          (fix scan_names (ns : list string) : outcome unit :=
             match ns with
             | [] => Ok tt
             | name :: ns' =>
                 if bool_decide (args !! name = None)
                    && negb (String.eqb name "abs")
                 then Raise (ValueError ("'" +:+ name +:+ "' not allowed"))
                 else scan_names ns'
             end) names
      end
  end.

(** The namespace that [eval] builds. *)
Definition build_args (_dict kw : list (string * pyobj)) : gmap string value :=
  wrap <$> update (update ops _dict) kw.

(** The globals that [eval] hands to [builtins.eval]. *)
Definition eval_globals : gmap string value :=
  {[ "__builtins" := VDict [("abs", VBuiltin "abs")] ]}.

(** [ImageMath.eval(expression, _dict, **kw)], for an expression that the
    host compiles (see [compiles]; for another one the call of [compile]
    raises [SyntaxError], after the validation of the keys and before the
    scan). *)
Definition eval (expression : expr) (_dict kw : list (string * pyobj))
  : M world value :=
  (* build execution namespace *)
  _ <- lift (check_keys (List.map fst _dict ++ List.map fst kw)%list) ;;
  let args := build_args _dict kw in
  let compiled_code := compile expression in
  _ <- lift (scan args compiled_code) ;;
  out <- builtins_eval expression eval_globals args ;;
  match getattr_value out "im" with
  | Ok image => ret image
  | Raise (AttributeError _) => ret out
  | Raise e => raise e
  end.

End Evaluator.

(** ** A sample provider *)

(** Images of a single colour: the buffer of an image is the value that all
    its pixels share, an integer.  It serves to run the definitions on
    concrete inputs. *)
Module Flat.

Definition colour (c : option num) : Z :=
  match c with
  | Some (NInt z) => z
  | Some (NFloat m e) => Z.shiftl m e
  | None => 0
  end.

(** The kernel names of the sample: every operation for mode I, and for
    mode F all but the bitwise ones. *)
Definition kernels : list string :=
  [ "abs_I"; "neg_I"; "add_I"; "sub_I"; "mul_I"; "div_I"; "mod_I"; "pow_I";
    "invert_I"; "and_I"; "or_I"; "xor_I"; "lshift_I"; "rshift_I";
    "eq_I"; "ne_I"; "lt_I"; "le_I"; "gt_I"; "ge_I"; "min_I"; "max_I";
    "abs_F"; "neg_F"; "add_F"; "sub_F"; "mul_F"; "div_F"; "mod_F"; "pow_F";
    "eq_F"; "ne_F"; "lt_F"; "le_F"; "gt_F"; "ge_F"; "min_F"; "max_F" ].

(** The operation of a kernel name: the name without its mode suffix. *)
Definition kernel_operation (name : string) : string :=
  substring 0 (String.length name - 2) name.

Definition run_unop (name : string) (a : Z) : Z :=
  let op := kernel_operation name in
  if String.eqb op "abs" then Z.abs a
  else if String.eqb op "neg" then - a
  else if String.eqb op "invert" then Z.lnot a
  else 0.

Definition run_binop (name : string) (a b : Z) : Z :=
  let op := kernel_operation name in
  if String.eqb op "add" then a + b
  else if String.eqb op "sub" then a - b
  else if String.eqb op "mul" then a * b
  else if String.eqb op "div" then Z.quot a b
  else if String.eqb op "mod" then Z.rem a b
  else if String.eqb op "pow" then a ^ b
  else if String.eqb op "and" then Z.land a b
  else if String.eqb op "or" then Z.lor a b
  else if String.eqb op "xor" then Z.lxor a b
  else if String.eqb op "lshift" then Z.shiftl a b
  else if String.eqb op "rshift" then Z.shiftr a b
  else if String.eqb op "eq" then Z.b2z (a =? b)
  else if String.eqb op "ne" then Z.b2z (negb (a =? b))
  else if String.eqb op "lt" then Z.b2z (a <? b)
  else if String.eqb op "le" then Z.b2z (a <=? b)
  else if String.eqb op "gt" then Z.b2z (a >? b)
  else if String.eqb op "ge" then Z.b2z (a >=? b)
  else if String.eqb op "min" then Z.min a b
  else if String.eqb op "max" then Z.max a b
  else 0.

(** Integer arithmetic of the host; the rest is left out. *)
Definition h_unary (op : unaryop) (v : value) : outcome value :=
  match op, v with
  | UAdd, VNum (NInt z) => Ok (VNum (NInt z))
  | USub, VNum (NInt z) => Ok (VNum (NInt (- z)))
  | Invert, VNum (NInt z) => Ok (VNum (NInt (Z.lnot z)))
  | _, _ => Raise unmodelled
  end.

Definition h_binary (op : binop) (a b : value) : outcome value :=
  match op, a, b with
  | Add, VNum (NInt x), VNum (NInt y) => Ok (VNum (NInt (x + y)))
  | Sub, VNum (NInt x), VNum (NInt y) => Ok (VNum (NInt (x - y)))
  | Mult, VNum (NInt x), VNum (NInt y) => Ok (VNum (NInt (x * y)))
  | _, _, _ => Raise unmodelled
  end.

Definition h_compare (op : cmpop) (a b : value) : outcome value :=
  match op, a, b with
  | Eq, VNum (NInt x), VNum (NInt y) => Ok (VBool (x =? y))
  | NotEq, VNum (NInt x), VNum (NInt y) => Ok (VBool (negb (x =? y)))
  | Lt, VNum (NInt x), VNum (NInt y) => Ok (VBool (x <? y))
  | LtE, VNum (NInt x), VNum (NInt y) => Ok (VBool (x <=? y))
  | Gt, VNum (NInt x), VNum (NInt y) => Ok (VBool (x >? y))
  | GtE, VNum (NInt x), VNum (NInt y) => Ok (VBool (x >=? y))
  | _, _, _ => Raise unmodelled
  end.

Definition h_call (name : string) (args : list value) : outcome value :=
  match args with
  | [VNum (NInt z)] =>
      if String.eqb name "abs" then Ok (VNum (NInt (Z.abs z)))
      else Raise unmodelled
  | _ => Raise unmodelled
  end.

#[export] Instance provider : Imaging := {|
  pixbuf := Z;
  core_new := fun _ _ c => colour c;
  core_convert := fun _ _ b => b;
  core_crop := fun _ _ b => b;
  imagingmath_has := fun name => member name kernels;
  math_unop := run_unop;
  math_binop := run_binop;
  host_unary := h_unary;
  host_binary := h_binary;
  host_compare := h_compare;
  host_call := h_call;
  beyond := fun _ => ([], [])
|}.

(** A store with three images: 4x3 in mode L, 2x5 in mode F, 4x3 in
    mode I. *)
Definition w0 : world := World [7; 9; -5] [].
Definition imL : Image.t := Image.mk 0 "L" (4, 3).
Definition imF : Image.t := Image.mk 1 "F" (2, 5).
Definition imI : Image.t := Image.mk 2 "I" (4, 3).
Definition imRGB : Image.t := Image.mk 3 "RGB" (4, 3).

End Flat.

(** ** Notions used by the statements *)

(** What a mapping given by its items binds [x] to: the last item with that
    key. *)
Fixpoint bound_to (d : list (string * pyobj)) (x : string) : option pyobj :=
  match d with
  | [] => None
  | (k, v) :: d' =>
      match bound_to d' x with
      | Some p => Some p
      | None => if String.eqb k x then Some v else None
      end
  end.

(** [refers bound e x]: the expression [e] uses the identifier [x], as a
    name that no enclosing lambda binds or as an attribute name, at any
    depth. *)
Inductive refers : list string -> expr -> string -> Prop :=
| refers_name bound x :
    x ∉ bound -> refers bound (EName x) x
| refers_attr bound e attr :
    refers bound (EAttr e attr) attr
| refers_attr_obj bound e attr x :
    refers bound e x -> refers bound (EAttr e attr) x
| refers_unary bound op e x :
    refers bound e x -> refers bound (EUnary op e) x
| refers_binary_l bound op l r x :
    refers bound l x -> refers bound (EBinary op l r) x
| refers_binary_r bound op l r x :
    refers bound r x -> refers bound (EBinary op l r) x
| refers_compare_l bound op l r x :
    refers bound l x -> refers bound (ECompare op l r) x
| refers_compare_r bound op l r x :
    refers bound r x -> refers bound (ECompare op l r) x
| refers_call_f bound f args x :
    refers bound f x -> refers bound (ECall f args) x
| refers_call_arg bound f args a x :
    In a args -> refers bound a x -> refers bound (ECall f args) x
| refers_lambda bound params body x :
    refers (params ++ bound)%list body x ->
    refers bound (ELambda params body) x.

(** [code_refers c x]: [x] is among the names of [c] or of a code object
    nested in its constants, at any depth. *)
Inductive code_refers : code -> string -> Prop :=
| code_refers_here ks ns x :
    In x ns -> code_refers (Code ks ns) x
| code_refers_nested ks ns c x :
    In (KCode c) ks -> code_refers c x -> code_refers (Code ks ns) x.

(** The two loops of [scan], named. *)
Definition scan_consts (args : gmap string value) : list const -> outcome unit :=
  fix scan_consts (ks : list const) : outcome unit :=
    match ks with
    | [] => Ok tt
    | KCode c' :: ks' =>
        match scan args c' with
        | Ok _ => scan_consts ks'
        | Raise e => Raise e
        end
    | _ :: ks' => scan_consts ks'
    end.

Definition scan_names (args : gmap string value) : list string -> outcome unit :=
  fix scan_names (ns : list string) : outcome unit :=
    match ns with
    | [] => Ok tt
    | name :: ns' =>
        if bool_decide (args !! name = None) && negb (String.eqb name "abs")
        then Raise (ValueError ("'" +:+ name +:+ "' not allowed"))
        else scan_names ns'
    end.

(** The frame in which [eval] runs the expression: the globals of [eval]
    after [builtins.eval] has completed them, and the namespace as locals. *)
Definition eval_frame (locals : gmap string value) : frame :=
  Frame (<["__builtins__" := VDict builtins_dict]> eval_globals) locals.

(** The keys of the bindings in the order [eval] visits them. *)
Definition keys (_dict kw : list (string * pyobj)) : list string :=
  (List.map fst _dict ++ List.map fst kw)%list.

(** [(lambda: int)()]. *)
Definition call_lambda_int : expr := ECall (ELambda [] (EName "int")) [].

(** The part of the binary [apply] between the two calls of [__fixup] and
    the allocation of the result, in its two stages: the reconciliation of
    the modes, then of the sizes. *)
Definition reconcile_modes `{Imaging} (im_1 im_2 : Image.t)
  : M world (Image.t * Image.t) :=
  if bool_decide (Image.mode im_1 ≠ Image.mode im_2) then
    im_1 <- (if bool_decide (Image.mode im_1 ≠ "F")
             then Image_convert im_1 "F" else ret im_1) ;;
    im_2 <- (if bool_decide (Image.mode im_2 ≠ "F")
             then Image_convert im_2 "F" else ret im_2) ;;
    ret (im_1, im_2)
  else ret (im_1, im_2).

Definition reconcile_sizes `{Imaging} (im_1 im_2 : Image.t)
  : M world (Image.t * Image.t) :=
  if bool_decide (Image.size im_1 ≠ Image.size im_2) then
    let size :=
      (Z.min (fst (Image.size im_1)) (fst (Image.size im_2)),
       Z.min (snd (Image.size im_1)) (snd (Image.size im_2))) in
    im_1 <- (if bool_decide (Image.size im_1 ≠ size)
             then Image_crop im_1 (0, 0, fst size, snd size)
             else ret im_1) ;;
    im_2 <- (if bool_decide (Image.size im_2 ≠ size)
             then Image_crop im_2 (0, 0, fst size, snd size)
             else ret im_2) ;;
    ret (im_1, im_2)
  else ret (im_1, im_2).

Definition reconcile `{Imaging} (im_1 im_2 : Image.t)
  : M world (Image.t * Image.t) :=
  p <- reconcile_modes im_1 im_2 ;; reconcile_sizes (fst p) (snd p).

(** [converted w k j w']: in the store [w] the image [k] is converted to
    mode F.  The result [j] is a new image, in the next free slot of [w], of
    mode F and of the size of [k]; the store [w'] is [w] with one more
    buffer, the conversion to mode F of the buffer that [k] has in [w]. *)
Definition converted `{Imaging} (w : world) (k j : Image.t) (w' : world) : Prop :=
  j = Image.mk (length (heap w)) "F" (Image.size k)
  /\ w' = World (heap w ++ [core_convert "F" k (read w (Image.id k))]) (calls w).

(** [cropped size w k j w']: in the store [w] the image [k] is cropped to
    the box with the upper left corner [(0, 0)] and the extent [size].  The
    result [j] is a new image, in the next free slot of [w], of the mode of
    [k] and of the size [size]; the store [w'] is [w] with one more buffer,
    the crop with that box of the buffer that [k] has in [w]. *)
Definition cropped `{Imaging} (size : Z * Z) (w : world) (k j : Image.t)
    (w' : world) : Prop :=
  j = Image.mk (length (heap w)) (Image.mode k) size
  /\ w' = World (heap w ++ [core_crop (0, 0, fst size, snd size) k
                                      (read w (Image.id k))]) (calls w).

(** [unchanged w k j w']: the image is used as it is and the store stays as
    it is. *)
Definition unchanged `{Imaging} (w : world) (k j : Image.t) (w' : world) : Prop :=
  j = k /\ w' = w.

(** The last part of [apply]: allocation of the result, lookup of the
    kernel and its invocation. *)
Definition dispatch1 `{Imaging} (op : string) (mode : option string)
    (im_1 : Image.t) : M world Operand :=
  out <- Image_new (or_else mode (Image.mode im_1)) (Image.size im_1) None ;;
  _ <- Image_load im_1 ;;
  op <- lookup_kernel op (Image.mode im_1) ;;
  _ <- _imagingmath.unop op (Image.id out) (Image.id im_1) ;;
  ret (_Operand out).

Definition dispatch2 `{Imaging} (op : string) (mode : option string)
    (im_1 im_2 : Image.t) : M world Operand :=
  out <- Image_new (or_else mode (Image.mode im_1)) (Image.size im_1) None ;;
  _ <- Image_load im_1 ;;
  _ <- Image_load im_2 ;;
  op <- lookup_kernel op (Image.mode im_1) ;;
  _ <- _imagingmath.binop op (Image.id out) (Image.id im_1) (Image.id im_2) ;;
  ret (_Operand out).

(** The store [w'] keeps every buffer of [w] and logs no further kernel
    call. *)
Definition quiet_extension `{Imaging} (w w' : world) : Prop :=
  heap w `prefix_of` heap w' /\ calls w' = calls w.

(** The element-wise minimum of two sizes. *)
Definition common_size (s1 s2 : Z * Z) : Z * Z :=
  (Z.min (fst s1) (fst s2), Z.min (snd s1) (snd s2)).

(** The mode and the size on which a binary [apply] settles for two
    normalized operands. *)
Definition common_mode (i1 i2 : Image.t) : string :=
  if decide (Image.mode i1 = Image.mode i2) then Image.mode i1 else "F".

Definition settled_size (i1 i2 : Image.t) : Z * Z :=
  if decide (Image.size i1 = Image.size i2) then Image.size i1
  else common_size (Image.size i1) (Image.size i2).

(** The reconciliation of the modes, as the comments of [apply] word it:
    when the modes of the normalized operands [i1] and [i2] differ, each
    one that is not in mode F is converted to mode F, the left one first;
    otherwise nothing happens.  [k1] and [k2] are the images handed on and
    [w'] the store they live in. *)
Definition modes_reconciled `{Imaging} (w : world) (i1 i2 k1 k2 : Image.t)
    (w' : world) : Prop :=
  if decide (Image.mode i1 = Image.mode i2)
  then k1 = i1 /\ k2 = i2 /\ w' = w
  else exists wa,
         (if decide (Image.mode i1 = "F")
          then unchanged w i1 k1 wa else converted w i1 k1 wa)
         /\ (if decide (Image.mode i2 = "F")
             then unchanged wa i2 k2 w' else converted wa i2 k2 w').

(** The reconciliation of the sizes: when the sizes of [k1] and [k2]
    differ, each one whose size is not the element-wise minimum of the two
    is cropped to it from the upper left corner, the left one first;
    otherwise nothing happens. *)
Definition sizes_reconciled `{Imaging} (w : world) (k1 k2 j1 j2 : Image.t)
    (w' : world) : Prop :=
  if decide (Image.size k1 = Image.size k2)
  then j1 = k1 /\ j2 = k2 /\ w' = w
  else let size := common_size (Image.size k1) (Image.size k2) in
       exists wa,
         (if decide (Image.size k1 = size)
          then unchanged w k1 j1 wa else cropped size w k1 j1 wa)
         /\ (if decide (Image.size k2 = size)
             then unchanged wa k2 j2 w' else cropped size wa k2 j2 w').

(** [settled i1 i2 k1 k2 j1 j2]: the modes and sizes of the images [k1],
    [k2] that the reconciliation of the modes hands on and of the images
    [j1], [j2] that the reconciliation of the sizes hands on, for the
    normalized operands [i1], [i2]. *)
Definition settled (i1 i2 k1 k2 j1 j2 : Image.t) : Prop :=
  Image.size k1 = Image.size i1 /\ Image.size k2 = Image.size i2
  /\ Image.mode k1 = common_mode i1 i2 /\ Image.mode k2 = common_mode i1 i2
  /\ Image.mode j1 = common_mode i1 i2 /\ Image.mode j2 = common_mode i1 i2
  /\ Image.size j1 = settled_size i1 i2 /\ Image.size j2 = settled_size i1 i2.


(** The pixels that the reconciliation of the sizes hands on for an image
    of the store when the sizes differ: those of its crop to [size] from the
    upper left corner, or its own when it has that size already; and the
    number of images that this allocates. *)
Definition top_left_pixels `{Imaging} (size : Z * Z) (w : world) (i : Image.t)
  : pixbuf :=
  if decide (Image.size i = size) then read w (Image.id i)
  else core_crop (0, 0, fst size, snd size) i (read w (Image.id i)).

Definition crops (size : Z * Z) (i : Image.t) : nat :=
  if decide (Image.size i = size) then 0%nat else 1%nat.

(** [returns_fresh m w]: run in the store [w], the operation [m] keeps
    every buffer that [w] holds, and the operand it returns wraps an image
    whose core did not exist in [w]. *)
Definition returns_fresh `{Imaging} (m : M world Operand) (w : world) : Prop :=
  forall r w', m w = (r, w') ->
    heap w `prefix_of` heap w'
    /\ forall out, r = Ok out ->
         (length (heap w) <= Image.id (im out) < length (heap w'))%nat.

(** The name of the operation that a binary operator stands for. *)
Definition operation (op : binop) : string :=
  match op with
  | Add => "add" | Sub => "sub" | Mult => "mul" | Div => "div" | Mod => "mod"
  | Pow => "pow" | BitAnd => "and" | BitOr => "or" | BitXor => "xor"
  | LShift => "lshift" | RShift => "rshift"
  end.

(** The result of an operator method as [eval] hands it on: the image that
    the returned operand wraps. *)
Definition lift_result `{Imaging} (r : outcome Operand * world)
  : outcome value * world :=
  match r with
  | (Ok o, w) => (Ok (VImage (im o)), w)
  | (Raise e, w) => (Raise e, w)
  end.

(** [x + (lambda t: t.real)(x)]: the attribute name [real] sits in the code
    of the lambda. *)
Definition nested_attribute : expr :=
  EBinary Add (EName "x")
    (ECall (ELambda ["t"] (EAttr (EName "t") "real")) [EName "x"]).


(** [one_kernel_call m]: when [m] returns an operand, it has invoked one
    kernel, whose output is the image of that operand; when it raises, it
    has invoked none. *)
Definition one_kernel_call `{Imaging} (m : M world Operand) : Prop :=
  forall w r w', m w = (r, w') ->
    match r with
    | Ok out =>
        exists key ins,
          calls w' = (calls w ++ [(key, Image.id (im out), ins)])%list
    | Raise _ => calls w' = calls w
    end.

(** A number that the image provider takes as the colour of a new image of
    the given mode: an integer of 32 bits for either mode, a float for mode
    F only. *)
Definition colour_for (mode : string) (c : num) : Prop :=
  match c with
  | NInt z => - 2 ^ 31 <= z < 2 ^ 31
  | NFloat _ _ => mode = "F"
  end.

(** Whether an expression is free of attribute access, at any depth. *)
Fixpoint attribute_free (e : expr) : bool :=
  match e with
  | ENum _ | EStr _ | EName _ => true
  | EAttr _ _ => false
  | EUnary _ e => attribute_free e
  | EBinary _ l r | ECompare _ l r => attribute_free l && attribute_free r
  | ECall f args => attribute_free f && forallb attribute_free args
  | ELambda _ body => attribute_free body
  end.







(** The mode in which [__fixup] hands on an image of a supported mode. *)
Definition normal_mode (mode : string) : string :=
  if member mode ["1"; "L"; "I"] then "I" else "F".

(** The evaluation of the arguments of a call, left to right: the inner
    loop of [exec]. *)
Definition exec_args `{Imaging} (depth : nat) (fr : frame)
    (scope : option (list (string * value))) : list expr -> M world (list value) :=
  fix go_args (es : list expr) : M world (list value) :=
    match es with
    | [] => ret []
    | a :: es' =>
        v <- exec depth fr scope a ;; vs <- go_args es' ;; ret (v :: vs)
    end.

(** What [exec] does with the callee and the arguments of a call. *)
Definition call_value `{Imaging} (depth : nat) (fr : frame) (fv : value)
    (vs : list value) : M world value :=
  match fv with
  | VFunction f => call_function f vs
  | VBuiltin name => call_builtin name vs
  | VLambda params body closure =>
      if bool_decide (length params = length vs) then
        match depth with
        | O => raise RecursionError
        | S depth' =>
            exec depth' fr (Some (zip params vs ++ closure)%list) body
        end
      else raise (TypeError "wrong number of arguments")
  | _ => raise (TypeError "object is not callable")
  end.

(** The test that [eval] applies to a key of the bindings. *)
Definition forbidden_key (k : string) : bool :=
  contains "__" k || hasattr_builtins k.

(** The name of the operation that a comparison operator stands for. *)
Definition comparison (op : cmpop) : string :=
  match op with
  | Eq => "eq" | NotEq => "ne" | Lt => "lt" | LtE => "le" | Gt => "gt"
  | GtE => "ge"
  end.

(** The two errors of [apply] on operands. *)
Definition operator_error (op : string) (e : exn) : Prop :=
  (exists mode, e = ValueError ("unsupported mode: " +:+ mode))
  \/ e = TypeError ("bad operand type for '" +:+ op +:+ "'").

(** The pixels that [__fixup] hands on for an image of a supported mode:
    those of its conversion to mode I for the modes 1 and L, its own
    otherwise; and the number of images that this allocates. *)
Definition normal_pixels `{Imaging} (w : world) (i : Image.t) : pixbuf :=
  if member (Image.mode i) ["1"; "L"]
  then core_convert "I" i (read w (Image.id i))
  else read w (Image.id i).

Definition temporaries (i : Image.t) : nat :=
  if member (Image.mode i) ["1"; "L"] then 1%nat else 0%nat.

(** What the caller sees of a binary operation on mode [mode] and size
    [size] whose result is the [n]-th image of the store: the kernel's
    result on the two normalized buffers, or the error of a missing
    kernel. *)
Definition binary_result `{Imaging} (op mode : string) (size : Z * Z) (n : nat)
    (a b : pixbuf) : outcome (value * option pixbuf) :=
  if imagingmath_has (op +:+ "_" +:+ mode)
  then Ok (VImage (Image.mk n mode size),
           Some (math_binop (op +:+ "_" +:+ mode) a b))
  else Raise (TypeError ("bad operand type for '" +:+ op +:+ "'")).

Definition unary_result `{Imaging} (op mode : string) (size : Z * Z) (n : nat)
    (a : pixbuf) : outcome (value * option pixbuf) :=
  if imagingmath_has (op +:+ "_" +:+ mode)
  then Ok (VImage (Image.mk n mode size),
           Some (math_unop (op +:+ "_" +:+ mode) a))
  else Raise (TypeError ("bad operand type for '" +:+ op +:+ "'")).

(** The last step of [eval]: [try: return out.im except AttributeError:
    return out]. *)
Definition unwrap `{Imaging} (out : value) : M world value :=
  match getattr_value out "im" with
  | Ok image => ret image
  | Raise (AttributeError _) => ret out
  | Raise e => raise e
  end.

(** A name that the scan lets through: a key of the namespace, or [abs]. *)
Definition allowed (args : gmap string value) (x : string) : Prop :=
  is_Some (args !! x) \/ x = "abs".

(** What an evaluation lets its caller see: the value returned, together
    with the pixels when it is an image, or the exception. *)
Definition observe `{Imaging} (r : outcome value * world)
  : outcome (value * option pixbuf) :=
  match r with
  | (Ok (VImage i), w) => Ok (VImage i, Some (read w (Image.id i)))
  | (Ok v, _) => Ok (v, None)
  | (Raise e, _) => Raise e
  end.

(** * Properties *)

Section Theory.
Context `{Imaging}.

(** ** The monad *)

Lemma bind_ok {A B} (m : M world A) (k : A -> M world B) w a w1 :
  m w = (Ok a, w1) -> bind m k w = k a w1.
Proof. intros E. unfold bind. now rewrite E. Qed.

Lemma bind_raise {A B} (m : M world A) (k : A -> M world B) w e w1 :
  m w = (Raise e, w1) -> bind m k w = (Raise e, w1).
Proof. intros E. unfold bind. now rewrite E. Qed.

Lemma bind_lift_raise {A B} (k : A -> M world B) e (w : world) :
  bind (lift (Raise e)) k w = (Raise e, w).
Proof. reflexivity. Qed.

Lemma bind_lift_ok {A B} (k : A -> M world B) a (w : world) :
  bind (lift (Ok a)) k w = k a w.
Proof. reflexivity. Qed.

(** ** Strings *)

Lemma prefix_app (s t : string) : String.prefix s (s +:+ t) = true.
Proof.
  induction s as [|c s IH]; simpl.
  - now destruct t.
  - destruct (Ascii.ascii_dec c c); [exact IH | congruence].
Qed.

Lemma prefix_split (s k : string) :
  String.prefix s k = true -> exists t, k = s +:+ t.
Proof.
  revert k. induction s as [|c s IH]; intros k Hp.
  - now exists k.
  - destruct k as [|c' k]; simpl in Hp; [discriminate|].
    destruct (Ascii.ascii_dec c c') as [->|]; [|discriminate].
    destruct (IH _ Hp) as [t ->]. now exists t.
Qed.

(** [contains s k] holds exactly when [s] is a substring of [k]. *)
Lemma contains_spec (s k : string) :
  contains s k = true <-> exists a b, k = a +:+ s +:+ b.
Proof.
  split.
  - induction k as [|c k IH]; cbn [contains]; intros Hc.
    + rewrite orb_false_r in Hc. destruct (prefix_split _ _ Hc) as [t ->].
      now exists "", t.
    + apply orb_true_iff in Hc as [Hp | Hr].
      * destruct (prefix_split _ _ Hp) as [t Ht]. now exists "", t.
      * destruct (IH Hr) as (a & b & ->). now exists (String c a), b.
  - intros (a & b & ->). induction a as [|c a IH].
    + change ("" +:+ s +:+ b) with (s +:+ b).
      destruct (s +:+ b) eqn:E; cbn [contains]; rewrite <- E, prefix_app;
        reflexivity.
    + change (String c a +:+ s +:+ b) with (String c (a +:+ s +:+ b)).
      cbn [contains]. rewrite IH. apply orb_true_r.
Qed.

(** ** Validation of the binding names *)

Lemma check_keys_bad (keys : list string) (k : string) :
  In k keys ->
  contains "__" k = true \/ In k builtin_names ->
  exists msg, check_keys keys = Raise (ValueError msg).
Proof.
  intros Hin Hbad. induction keys as [|k' keys IH]; [contradiction|].
  simpl. destruct (contains "__" k' || hasattr_builtins k') eqn:E; [eauto|].
  destruct Hin as [->|Hin]; [|auto].
  apply orb_false_iff in E as [E1 E2]. destruct Hbad as [Hb|Hb].
  - congruence.
  - unfold hasattr_builtins, member in E2.
    apply bool_decide_eq_false in E2. exfalso. apply E2.
    now apply list_elem_of_In.
Qed.

Lemma check_keys_ok (keys : list string) (k : string) :
  check_keys keys = Ok tt -> In k keys ->
  contains "__" k = false /\ ~ In k builtin_names.
Proof.
  induction keys as [|k' keys IH]; intros Hc Hin; [contradiction|].
  simpl in Hc. destruct (contains "__" k' || hasattr_builtins k') eqn:E;
    [discriminate|].
  destruct Hin as [->|Hin]; [|auto].
  apply orb_false_iff in E as [E1 E2]. split; [exact E1|].
  unfold hasattr_builtins, member in E2. apply bool_decide_eq_false in E2.
  intros Hb. apply E2. now apply list_elem_of_In.
Qed.

(** ** The namespace *)

Lemma update_lookup (args : gmap string value) d x :
  update args d !! x =
  match bound_to d x with
  | Some p => Some (inject p)
  | None => args !! x
  end.
Proof.
  unfold update. revert args. induction d as [|[k v] d IH]; intros args; simpl.
  - reflexivity.
  - rewrite IH. destruct (bound_to d x); [reflexivity|].
    destruct (String.eqb_spec k x) as [->|Hne].
    + now rewrite lookup_insert_eq.
    + now rewrite lookup_insert_ne.
Qed.

Lemma bound_to_app d1 d2 x :
  bound_to (d1 ++ d2) x =
  match bound_to d2 x with
  | Some p => Some p
  | None => bound_to d1 x
  end.
Proof.
  induction d1 as [|[k v] d1 IH]; simpl.
  - now destruct (bound_to d2 x).
  - rewrite IH. now destruct (bound_to d2 x).
Qed.

Lemma bound_to_in d x p : bound_to d x = Some p -> In x (List.map fst d).
Proof.
  induction d as [|[k v] d IH]; simpl; [discriminate|].
  destruct (bound_to d x).
  - intros Hq. right. now apply IH.
  - destruct (String.eqb_spec k x); [now left | discriminate].
Qed.

(** The namespace of [eval]: a name bound by the caller holds the caller's
    value, wrapped when it is an image; any other name is what [ops] says. *)
Lemma build_args_lookup _dict kw x :
  build_args _dict kw !! x =
  match bound_to (_dict ++ kw) x with
  | Some p => Some (wrap (inject p))
  | None => ops !! x
  end.
Proof.
  unfold build_args. rewrite lookup_fmap, !update_lookup, bound_to_app.
  destruct (bound_to kw x); [reflexivity|].
  destruct (bound_to _dict x); [reflexivity|].
  destruct (ops !! x) as [v|] eqn:E; [|reflexivity].
  simpl. f_equal.
  assert (Hv : forall y v', ops !! y = Some v' -> wrap v' = v').
  { intros y v' Hy. apply elem_of_map_to_list, list_elem_of_In in Hy.
    revert Hy. vm_compute. intros Hin.
    repeat (destruct Hin as [Hin|Hin]; [now inversion Hin|]).
    inversion Hin. }
  eauto.
Qed.

(** ** The static scan *)

Lemma scan_unfold args ks ns :
  scan args (Code ks ns) =
  match scan_consts args ks with
  | Raise e => Raise e
  | Ok _ => scan_names args ns
  end.
Proof. reflexivity. Qed.

Lemma code_induction (P : code -> Prop) :
  (forall ks ns, (forall c, In (KCode c) ks -> P c) -> P (Code ks ns)) ->
  forall c, P c.
Proof.
  intros HP. fix IH 1. intros [ks ns]. apply HP.
  induction ks as [|k ks IHks]; intros c Hin; [contradiction|].
  destruct Hin as [E|Hin]; [|now apply IHks].
  destruct k as [n|s|b|c']; [discriminate | discriminate | discriminate |].
  injection E as E. rewrite <- E. apply IH.
Qed.

Lemma scan_names_raises args ns e :
  scan_names args ns = Raise e -> exists msg, e = ValueError msg.
Proof.
  induction ns as [|n ns IH]; simpl; [discriminate|].
  destruct (_ && _); [|exact IH]. intros [= <-]. eauto.
Qed.

(** [scan] raises nothing but [ValueError]. *)
Lemma scan_raises args c e :
  scan args c = Raise e -> exists msg, e = ValueError msg.
Proof.
  revert e. induction c as [ks ns IH] using code_induction. intros e.
  rewrite scan_unfold.
  destruct (scan_consts args ks) as [[]|e'] eqn:E.
  - apply scan_names_raises.
  - intros [= <-]. clear ns. induction ks as [|k ks IHks]; [discriminate|].
    assert (IH' : forall c, In (KCode c) ks ->
              forall e, scan args c = Raise e -> exists msg, e = ValueError msg)
      by (intros c0 Hc0; apply IH; now right).
    simpl in E.
    destruct k as [n|s|b|c]; [now apply IHks | now apply IHks | now apply IHks |].
    destruct (scan args c) as [[]|e''] eqn:Ec.
    + now apply IHks.
    + injection E as <-. apply (IH c); [now left | exact Ec].
Qed.

Lemma scan_names_bad args ns x :
  In x ns -> args !! x = None -> x <> "abs" ->
  exists msg, scan_names args ns = Raise (ValueError msg).
Proof.
  intros Hin Hx Habs. induction ns as [|n ns IH]; [contradiction|]. simpl.
  destruct (bool_decide (args !! n = None) && negb (String.eqb n "abs")) eqn:E;
    [eauto|].
  destruct Hin as [->|Hin]; [|auto].
  rewrite bool_decide_eq_true_2 in E by exact Hx.
  destruct (String.eqb_spec x "abs"); [contradiction | discriminate].
Qed.

Lemma scan_consts_bad args ks c msg :
  In (KCode c) ks -> scan args c = Raise (ValueError msg) ->
  exists msg', scan_consts args ks = Raise (ValueError msg').
Proof.
  intros Hin Hc. induction ks as [|k ks IH]; [contradiction|].
  destruct Hin as [->|Hin].
  - simpl. rewrite Hc. eauto.
  - simpl. destruct k as [n|s|b|c']; auto.
    destruct (scan args c') as [[]|e] eqn:E; [auto|].
    destruct (scan_raises _ _ _ E) as [m ->]. eauto.
Qed.

(** A code object that refers to a name outside the namespace, other than
    [abs], does not pass the scan. *)
Lemma scan_rejects args c x :
  code_refers c x -> args !! x = None -> x <> "abs" ->
  exists msg, scan args c = Raise (ValueError msg).
Proof.
  intros Hr Hx Habs. induction Hr as [ks ns x Hin | ks ns c x Hin Hr IH];
    rewrite scan_unfold.
  - destruct (scan_consts args ks) as [[]|e] eqn:E.
    + now apply (scan_names_bad _ _ x).
    + assert (Hs : scan args (Code ks []) = Raise e)
        by (rewrite scan_unfold; now rewrite E).
      destruct (scan_raises _ _ _ Hs) as [m ->]. eauto.
  - destruct (IH Hx Habs) as [m Hm].
    destruct (scan_consts_bad _ _ _ _ Hin Hm) as [m' ->]. eauto.
Qed.

(** ** Compilation *)

Lemma code_refers_mono ks ns ks' ns' x :
  code_refers (Code ks ns) x -> incl ks ks' -> incl ns ns' ->
  code_refers (Code ks' ns') x.
Proof.
  intros Hr Hk Hn. inversion Hr; subst.
  - apply code_refers_here. auto.
  - eapply code_refers_nested; eauto.
Qed.

Lemma eqb_debug x : x <> "__debug__" -> String.eqb x "__debug__" = false.
Proof. apply String.eqb_neq. Qed.

(** The compiled code refers to every identifier the expression refers
    to, except [__debug__]. *)
Lemma compile_in_refers bound e x :
  refers bound e x ->
  x <> "__debug__" ->
  code_refers (Code (fst (compile_in bound e)) (snd (compile_in bound e))) x.
Proof.
  induction 1 as
    [ bound x Hx | bound e attr | bound e attr x _ IH | bound op e x _ IH
    | bound op l r x _ IH | bound op l r x _ IH
    | bound op l r x _ IH | bound op l r x _ IH
    | bound f args x _ IH | bound f args a x Hin _ IH
    | bound params body x _ IH ]; intros Hd; try specialize (IH Hd); simpl.
  - rewrite (eqb_debug x Hd). apply code_refers_here. unfold member.
    rewrite bool_decide_eq_false_2 by exact Hx. now left.
  - destruct (compile_in bound e) as [ks ns]. apply code_refers_here. simpl.
    apply in_or_app. right. now left.
  - destruct (compile_in bound e) as [ks ns]. simpl in *.
    eapply code_refers_mono; [exact IH | apply incl_refl | now apply incl_appl].
  - exact IH.
  - destruct (compile_in bound l) as [ks1 ns1], (compile_in bound r) as [ks2 ns2].
    simpl in *. eapply code_refers_mono; [exact IH | |]; now apply incl_appl.
  - destruct (compile_in bound l) as [ks1 ns1], (compile_in bound r) as [ks2 ns2].
    simpl in *. eapply code_refers_mono; [exact IH | |]; now apply incl_appr.
  - destruct (compile_in bound l) as [ks1 ns1], (compile_in bound r) as [ks2 ns2].
    simpl in *. eapply code_refers_mono; [exact IH | |]; now apply incl_appl.
  - destruct (compile_in bound l) as [ks1 ns1], (compile_in bound r) as [ks2 ns2].
    simpl in *. eapply code_refers_mono; [exact IH | |]; now apply incl_appr.
  - destruct (compile_in bound f) as [ks ns]. simpl in *.
    eapply code_refers_mono; [exact IH | |]; now apply incl_appl.
  - destruct (compile_in bound f) as [ks ns]. simpl in *.
    eapply code_refers_mono; [exact IH | |]; apply incl_appr;
      intros y Hy; apply in_concat; eexists; (split; [|exact Hy]);
      rewrite List.map_map; apply (List.in_map (fun e => _ (compile_in bound e)));
      exact Hin.
  - destruct (compile_in (params ++ bound) body) as [ks ns]. simpl in *.
    eapply code_refers_nested; [now left | exact IH].
Qed.

Lemma compile_refers expression x :
  refers [] expression x -> x <> "__debug__" ->
  code_refers (compile expression) x.
Proof.
  intros Hr Hd. apply compile_in_refers in Hr; [|exact Hd]. unfold compile.
  now destruct (compile_in [] expression).
Qed.

(** ** Running [eval] *)

Lemma check_keys_raises ks e :
  check_keys ks = Raise e -> exists msg, e = ValueError msg.
Proof.
  induction ks as [|k ks IH]; simpl; [discriminate|].
  destruct (_ || _); [|exact IH]. intros [= <-]. eauto.
Qed.

Lemma eval_invalid_keys expression _dict kw w e :
  check_keys (keys _dict kw) = Raise e ->
  eval expression _dict kw w = (Raise e, w).
Proof. intros E. unfold eval. fold (keys _dict kw). now rewrite E. Qed.

Lemma eval_scan_fails expression _dict kw w e :
  check_keys (keys _dict kw) = Ok tt ->
  scan (build_args _dict kw) (compile expression) = Raise e ->
  eval expression _dict kw w = (Raise e, w).
Proof.
  intros E1 E2. unfold eval. fold (keys _dict kw).
  rewrite E1, bind_lift_ok. cbv beta zeta. now rewrite E2.
Qed.

Lemma builtins_eval_frame expression locals :
  builtins_eval expression eval_globals locals =
  exec recursion_limit (eval_frame locals) None expression.
Proof. reflexivity. Qed.

Lemma eval_valid expression _dict kw w :
  check_keys (keys _dict kw) = Ok tt ->
  scan (build_args _dict kw) (compile expression) = Ok tt ->
  eval expression _dict kw w =
  bind (exec recursion_limit (eval_frame (build_args _dict kw)) None expression)
       (fun out => match getattr_value out "im" with
                   | Ok image => ret image
                   | Raise (AttributeError _) => ret out
                   | Raise e => raise e
                   end) w.
Proof.
  intros E1 E2. unfold eval. fold (keys _dict kw).
  rewrite E1, bind_lift_ok. cbv beta zeta. rewrite E2, bind_lift_ok.
  now rewrite builtins_eval_frame.
Qed.

Lemma exec_name depth fr x :
  x <> "__debug__" -> exec depth fr None (EName x) = lift (load_name fr x).
Proof. intros Hd. destruct depth; cbn; now rewrite (eqb_debug x Hd). Qed.

(** A key that passes the validation is not [__debug__]. *)
Lemma bound_not_debug _dict kw x p :
  check_keys (keys _dict kw) = Ok tt ->
  bound_to (_dict ++ kw) x = Some p ->
  x <> "__debug__".
Proof.
  intros Hk Hb ->. apply bound_to_in in Hb. rewrite List.map_app in Hb.
  destruct (check_keys_ok _ _ Hk Hb) as [Hc _]. discriminate Hc.
Qed.

Lemma member_nil x : member x [] = false.
Proof. apply bool_decide_eq_false_2. apply not_elem_of_nil. Qed.

Lemma scan_name args x v :
  args !! x = Some v -> scan args (compile (EName x)) = Ok tt.
Proof.
  intros Hx. unfold compile. cbn [compile_in].
  destruct (String.eqb x "__debug__"); [reflexivity|]. rewrite member_nil.
  rewrite scan_unfold. cbn [scan_consts scan_names].
  rewrite bool_decide_eq_false_2; [reflexivity | congruence].
Qed.

(** Evaluating a name that the caller has bound gives back the value bound
    to it. *)
Lemma eval_bound_name x p _dict kw w :
  check_keys (keys _dict kw) = Ok tt ->
  bound_to (_dict ++ kw) x = Some p ->
  eval (EName x) _dict kw w = (Ok (inject p), w).
Proof.
  intros Hk Hb.
  assert (Hx : build_args _dict kw !! x = Some (wrap (inject p)))
    by now rewrite build_args_lookup, Hb.
  rewrite eval_valid; [|exact Hk|now apply scan_name with (v := wrap (inject p))].
  rewrite exec_name by exact (bound_not_debug _ _ _ _ Hk Hb).
  unfold load_name, eval_frame, f_locals. rewrite Hx.
  now destruct p.
Qed.

(** ** The evaluator: names *)

(** C1 (the code departs from the claim).  [eval] passes the globals
    [{"__builtins": {"abs": abs}}]: the key is not [__builtins__], so
    [builtins.eval] installs the whole module [builtins] and every built-in
    name resolves in the frame.  The validated expression [(lambda: int)()],
    evaluated with no bindings, returns the host's own [int]. *)
Theorem host_builtins_reachable (w : world) :
  eval_globals !! "__builtins__" = None
  /\ (forall expression locals,
        builtins_eval expression eval_globals locals =
        exec recursion_limit (eval_frame locals) None expression)
  /\ (forall locals, f_builtins (eval_frame locals) = builtins_dict)
  /\ (forall locals name, In name builtin_names ->
        load_global (eval_frame locals) name = Ok (VBuiltin name))
  /\ check_keys (keys [] []) = Ok tt
  /\ scan (build_args [] []) (compile call_lambda_int) = Ok tt
  /\ eval call_lambda_int [] [] w = (Ok (VBuiltin "int"), w).
Proof.
  split; [reflexivity|]. split; [reflexivity|]. split; [reflexivity|]. split.
  - intros locals name Hin.
    assert (Hall : forallb (fun n =>
              match load_global (eval_frame locals) n with
              | Ok (VBuiltin m) => String.eqb m n
              | _ => false
              end) builtin_names = true) by (vm_compute; reflexivity).
    rewrite forallb_forall in Hall. specialize (Hall name Hin).
    destruct (load_global (eval_frame locals) name) as [[]|]; try discriminate.
    apply String.eqb_eq in Hall. now subst.
  - split; [reflexivity|]. split; vm_compute; reflexivity.
Qed.

(** C2, as the code has it.  An expression that the host compiles and that
    refers, at any depth and also inside a lambda, to an identifier other
    than [__debug__] that is neither a key of the namespace nor [abs] makes
    [eval] raise [ValueError] with the store as it was: the expression is
    not run and no kernel is invoked.  The identifier [__debug__] is set
    apart: the compiler replaces it by a constant, so that the scan does not
    meet it. *)
Theorem scan_precedes_execution expression _dict kw w x :
  compiles expression = true ->
  refers [] expression x ->
  build_args _dict kw !! x = None ->
  x <> "abs" ->
  x <> "__debug__" ->
  exists msg,
    eval expression _dict kw w = (Raise (ValueError msg), w)
    /\ calls (snd (eval expression _dict kw w)) = calls w.
Proof.
  intros _ Hr Hx Habs Hd.
  destruct (check_keys (keys _dict kw)) as [[]|e] eqn:E.
  - destruct (scan_rejects (build_args _dict kw) (compile expression) x)
      as [msg Hs]; [now apply compile_refers | exact Hx | exact Habs |].
    exists msg. now rewrite (eval_scan_fails _ _ _ _ _ E Hs).
  - destruct (check_keys_raises _ _ E) as [msg ->].
    exists msg. now rewrite (eval_invalid_keys _ _ _ _ _ E).
Qed.

Lemma eval_forbidden_key expression _dict kw w k :
  In k (keys _dict kw) ->
  (exists a b, k = a +:+ "__" +:+ b) \/ In k builtin_names ->
  exists msg, eval expression _dict kw w = (Raise (ValueError msg), w).
Proof.
  intros Hin Hbad.
  destruct (check_keys_bad (keys _dict kw) k Hin) as [msg E].
  - destruct Hbad as [Hu|Hb]; [left; now apply contains_spec | now right].
  - exists msg. now apply eval_invalid_keys.
Qed.

(** C3.  When a key of the bindings contains a double underscore or is the
    name of a built-in, [eval] raises [ValueError] and leaves the store as
    it was: nothing has been evaluated. *)
Theorem invalid_binding_key_rejected expression _dict kw w k :
  In k (keys _dict kw) ->
  (exists a b, k = a +:+ "__" +:+ b) \/ In k builtin_names ->
  exists msg, eval expression _dict kw w = (Raise (ValueError msg), w).
Proof. apply eval_forbidden_key. Qed.

(** C7.  With valid bindings that bind [x] to an image, evaluating the
    expression [x] returns that very image, not wrapped, and changes
    nothing. *)
Theorem eval_name_returns_image x image _dict kw w :
  check_keys (keys _dict kw) = Ok tt ->
  bound_to (_dict ++ kw) x = Some (PImage image) ->
  eval (EName x) _dict kw w = (Ok (VImage image), w).
Proof. intros Hk Hb. exact (eval_bound_name x (PImage image) _ _ w Hk Hb). Qed.

(** C10.  A binding named [int], [float], [min] or [max] (names of the
    vocabulary that are built-ins) is rejected with [ValueError]; a binding
    named [equal], [notequal] or [convert] passes the validation and takes
    the place of the helper in the namespace of that evaluation. *)
Theorem vocabulary_names_as_binding_keys k :
  (In k ["int"; "float"; "min"; "max"] ->
   (exists f, ops !! k = Some (VFunction f))
   /\ forall expression _dict kw w,
        In k (keys _dict kw) ->
        exists msg, eval expression _dict kw w = (Raise (ValueError msg), w))
  /\ (In k ["equal"; "notequal"; "convert"] ->
      (exists f, ops !! k = Some (VFunction f))
      /\ contains "__" k || hasattr_builtins k = false
      /\ forall _dict kw p,
           check_keys (keys _dict kw) = Ok tt ->
           bound_to (_dict ++ kw) k = Some p ->
           build_args _dict kw !! k = Some (wrap (inject p))
           /\ (forall f, wrap (inject p) <> VFunction f)
           /\ forall w, eval (EName k) _dict kw w = (Ok (inject p), w)).
Proof.
  split.
  - intros Hk. split.
    + simpl in Hk. destruct Hk as [<-|[<-|[<-|[<-|[]]]]]; eexists; now vm_compute.
    + intros expression _dict kw w Hin.
      apply eval_forbidden_key with (k := k); [exact Hin|].
      right. simpl in Hk.
      destruct Hk as [<-|[<-|[<-|[<-|[]]]]];
        apply list_elem_of_In, (bool_decide_eq_true _); now vm_compute.
  - intros Hk. split; [|split].
    + simpl in Hk. destruct Hk as [<-|[<-|[<-|[]]]]; eexists; now vm_compute.
    + simpl in Hk. destruct Hk as [<-|[<-|[<-|[]]]]; now vm_compute.
    + intros _dict kw p Hc Hb. split; [|split].
      * now rewrite build_args_lookup, Hb.
      * intros f. now destruct p.
      * intros w. now apply eval_bound_name.
Qed.

(** ** The provider and the store *)

Lemma bind_assoc {A B C} (m : M world A) (f : A -> M world B)
    (g : B -> M world C) w :
  bind (bind m f) g w = bind m (fun x => bind (f x) g) w.
Proof. unfold bind. destruct (m w) as [[a|e] w1]; reflexivity. Qed.

Lemma Image_new_blank mode size w :
  Image_new mode size None w =
  (Ok (Image.mk (length (heap w)) mode size),
   World (heap w ++ [core_new mode size None]) (calls w)).
Proof. reflexivity. Qed.

Lemma Image_new_colour mode size v c w :
  as_number v = Some c ->
  Image_new mode size (Some v) w =
  (Ok (Image.mk (length (heap w)) mode size),
   World (heap w ++ [core_new mode size (Some c)]) (calls w)).
Proof. intros E. unfold Image_new. now rewrite E. Qed.

Lemma Image_convert_run self mode w :
  Image_convert self mode w =
  (Ok (Image.mk (length (heap w)) mode (Image.size self)),
   World (heap w ++ [core_convert mode self (read w (Image.id self))]) (calls w)).
Proof. reflexivity. Qed.

Lemma Image_crop_run self x1 y1 w :
  Image_crop self (0, 0, x1, y1) w =
  (Ok (Image.mk (length (heap w)) (Image.mode self) (x1, y1)),
   World (heap w ++ [core_crop (0, 0, x1, y1) self (read w (Image.id self))])
         (calls w)).
Proof. unfold Image_crop. cbn. now rewrite !Z.sub_0_r. Qed.

Lemma quiet_refl w : quiet_extension w w.
Proof. split; reflexivity. Qed.

Lemma quiet_trans w1 w2 w3 :
  quiet_extension w1 w2 -> quiet_extension w2 w3 -> quiet_extension w1 w3.
Proof.
  intros [P1 C1] [P2 C2]. split; [now transitivity (heap w2) | congruence].
Qed.

Lemma quiet_push w b : quiet_extension w (World (heap w ++ [b]) (calls w)).
Proof. split; [now apply prefix_app_r | reflexivity]. Qed.

Lemma read_prefix w w' i :
  heap w `prefix_of` heap w' -> (i < length (heap w))%nat -> read w' i = read w i.
Proof.
  intros [k Hk] Hi. unfold read. rewrite Hk, lookup_app_l by exact Hi.
  reflexivity.
Qed.

Lemma insert_last {A} (l : list A) (x y : A) :
  <[length l := y]> (l ++ [x])%list = (l ++ [y])%list.
Proof.
  rewrite insert_app_r_alt by lia. now rewrite Nat.sub_diag.
Qed.

Lemma Image_new_quiet mode size color w r w' :
  Image_new mode size color w = (r, w') -> quiet_extension w w'.
Proof.
  unfold Image_new. destruct color as [v|].
  - destruct (as_number v); intros [= <- <-];
      [apply quiet_push | apply quiet_refl].
  - intros [= <- <-]. apply quiet_push.
Qed.

Lemma Image_convert_quiet self mode w r w' :
  Image_convert self mode w = (r, w') -> quiet_extension w w'.
Proof. rewrite Image_convert_run. intros [= <- <-]. apply quiet_push. Qed.

(** ** [__fixup] *)

Lemma fixup_quiet self v w r w' :
  __fixup self v w = (r, w') -> quiet_extension w w'.
Proof.
  unfold __fixup.
  destruct v;
    try (destruct (_ && _); apply Image_new_quiet).
  destruct (member (Image.mode (im o)) ["1"; "L"]);
    [apply Image_convert_quiet|].
  destruct (member (Image.mode (im o)) ["I"; "F"]);
    intros [= <- <-]; apply quiet_refl.
Qed.

Lemma member_In x l : member x l = true <-> In x l.
Proof.
  unfold member. rewrite bool_decide_eq_true. apply list_elem_of_In.
Qed.

Lemma member_not_In x l : member x l = false <-> ~ In x l.
Proof.
  unfold member. rewrite bool_decide_eq_false. now rewrite list_elem_of_In.
Qed.

(** What [__fixup] returns is in mode I or in mode F. *)
Lemma fixup_mode self v w i w' :
  __fixup self v w = (Ok i, w') -> Image.mode i = "I" \/ Image.mode i = "F".
Proof.
  unfold __fixup.
  assert (Hnew : forall m, m = "I" \/ m = "F" ->
            Image_new m (Image.size (im self)) (Some v) w = (Ok i, w') ->
            Image.mode i = "I" \/ Image.mode i = "F").
  { intros m Hm. unfold Image_new. destruct (as_number v); [|discriminate].
    intros [= <- _]. exact Hm. }
  destruct v; try (destruct (_ && _); apply Hnew; auto).
  destruct (member (Image.mode (im o)) ["1"; "L"]) eqn:E1.
  - rewrite Image_convert_run. intros [= <- _]. now left.
  - destruct (member (Image.mode (im o)) ["I"; "F"]) eqn:E2; [|discriminate].
    intros [= <- _]. apply member_In in E2. simpl in E2. intuition.
Qed.

Lemma fixup_operand_convert self o w :
  In (Image.mode (im o)) ["1"; "L"] ->
  __fixup self (VOperand o) w = Image_convert (im o) "I" w.
Proof. intros Hm. apply member_In in Hm. unfold __fixup. now rewrite Hm. Qed.

Lemma fixup_operand_pass self o w :
  In (Image.mode (im o)) ["I"; "F"] ->
  __fixup self (VOperand o) w = (Ok (im o), w).
Proof.
  intros Hm. unfold __fixup.
  assert (E1 : member (Image.mode (im o)) ["1"; "L"] = false).
  { apply member_not_In. simpl in *.
    intros [E|[E|[]]]; rewrite <- E in Hm;
      destruct Hm as [Hm|[Hm|[]]]; discriminate. }
  apply member_In in Hm. now rewrite E1, Hm.
Qed.

Lemma fixup_operand_reject self o w :
  ~ In (Image.mode (im o)) ["1"; "L"; "I"; "F"] ->
  __fixup self (VOperand o) w =
  (Raise (ValueError ("unsupported mode: " +:+ Image.mode (im o))), w).
Proof.
  intros Hm. unfold __fixup.
  assert (E1 : member (Image.mode (im o)) ["1"; "L"] = false)
    by (apply member_not_In; simpl in *; tauto).
  assert (E2 : member (Image.mode (im o)) ["I"; "F"] = false)
    by (apply member_not_In; simpl in *; tauto).
  now rewrite E1, E2.
Qed.

Lemma fixup_number_int self c w :
  In (Image.mode (im self)) ["1"; "L"; "I"] ->
  __fixup self (VNum c) w =
  (Ok (Image.mk (length (heap w)) "I" (Image.size (im self))),
   World (heap w ++ [core_new "I" (Image.size (im self)) (Some c)]) (calls w)).
Proof. intros Hm. unfold __fixup. apply member_In in Hm. now rewrite Hm. Qed.

Lemma fixup_number_float self c w :
  ~ In (Image.mode (im self)) ["1"; "L"; "I"] ->
  __fixup self (VNum c) w =
  (Ok (Image.mk (length (heap w)) "F" (Image.size (im self))),
   World (heap w ++ [core_new "F" (Image.size (im self)) (Some c)]) (calls w)).
Proof. intros Hm. unfold __fixup. apply member_not_In in Hm. now rewrite Hm. Qed.

(** C4.  [__fixup], case by case: an operand in mode 1 or L is converted to
    mode I; an operand in mode I or F is returned as it is; an operand in
    another mode raises [ValueError]; a number becomes a new image of the
    size of [self], filled with it, in mode I when [self] is in mode 1, L or
    I and in mode F otherwise. *)
Theorem fixup_cases (self : Operand) (w : world) :
  (forall o, In (Image.mode (im o)) ["1"; "L"] ->
     __fixup self (VOperand o) w = Image_convert (im o) "I" w
     /\ __fixup self (VOperand o) w =
        (Ok (Image.mk (length (heap w)) "I" (Image.size (im o))),
         World (heap w ++ [core_convert "I" (im o) (read w (Image.id (im o)))])
               (calls w)))
  /\ (forall o, In (Image.mode (im o)) ["I"; "F"] ->
       __fixup self (VOperand o) w = (Ok (im o), w))
  /\ (forall o, ~ In (Image.mode (im o)) ["1"; "L"; "I"; "F"] ->
       __fixup self (VOperand o) w =
       (Raise (ValueError ("unsupported mode: " +:+ Image.mode (im o))), w))
  /\ (forall c : num, In (Image.mode (im self)) ["1"; "L"; "I"] ->
       __fixup self (VNum c) w =
       (Ok (Image.mk (length (heap w)) "I" (Image.size (im self))),
        World (heap w ++ [core_new "I" (Image.size (im self)) (Some c)])
              (calls w)))
  /\ (forall c : num, ~ In (Image.mode (im self)) ["1"; "L"; "I"] ->
       __fixup self (VNum c) w =
       (Ok (Image.mk (length (heap w)) "F" (Image.size (im self))),
        World (heap w ++ [core_new "F" (Image.size (im self)) (Some c)])
              (calls w))).
Proof.
  split; [|split; [|split; [|split]]].
  - intros o Hm. split; [now apply fixup_operand_convert|].
    now rewrite fixup_operand_convert.
  - intros o. apply fixup_operand_pass.
  - intros o. apply fixup_operand_reject.
  - intros c. apply fixup_number_int.
  - intros c. apply fixup_number_float.
Qed.

(** ** [apply] *)

Lemma bind_ext {A B} (m : M world A) (f g : A -> M world B) w :
  (forall a w1, f a w1 = g a w1) -> bind m f w = bind m g w.
Proof. intros E. unfold bind. destruct (m w) as [[a|e] w1]; auto. Qed.

Lemma apply_unary_unfold self op a mode w :
  apply self op a None mode w = bind (__fixup self a) (dispatch1 op mode) w.
Proof. reflexivity. Qed.

Lemma apply_binary_unfold self op a b mode w :
  apply self op a (Some b) mode w =
  bind (__fixup self a) (fun im_1 =>
    bind (__fixup self b) (fun im_2 =>
      bind (reconcile im_1 im_2) (fun p =>
        dispatch2 op mode (fst p) (snd p)))) w.
Proof.
  unfold apply. apply bind_ext. intros im_1 w1. apply bind_ext.
  intros im_2 w2. unfold reconcile. rewrite bind_assoc. reflexivity.
Qed.

Ltac splits := repeat match goal with |- _ /\ _ => split end.

Ltac reconcile_goal :=
  first
    [ reflexivity | assumption | apply quiet_refl | apply quiet_push
    | (eapply quiet_trans; apply quiet_push)
    | now left
    | (right; eexists _, _; reflexivity)
    | (cbn; rewrite !Z.sub_0_r; reflexivity)
    | congruence
    | (intros; exfalso; congruence)
    | (intros; splits; reflexivity) ].

Lemma reconcile_modes_spec i1 i2 w :
  exists k1 k2 w',
    reconcile_modes i1 i2 w = (Ok (k1, k2), w')
    /\ modes_reconciled w i1 i2 k1 k2 w'
    /\ quiet_extension w w'
    /\ Image.size k1 = Image.size i1 /\ Image.size k2 = Image.size i2
    /\ Image.mode k1 = common_mode i1 i2 /\ Image.mode k2 = common_mode i1 i2
    /\ (Image.mode i1 = Image.mode i2 -> k1 = i1 /\ k2 = i2 /\ w' = w).
Proof.
  unfold reconcile_modes, modes_reconciled, common_mode.
  destruct (decide (Image.mode i1 = Image.mode i2)) as [Eq|Ne].
  - rewrite bool_decide_eq_false_2 by tauto.
    exists i1, i2, w. splits; reconcile_goal.
  - rewrite bool_decide_eq_true_2 by exact Ne.
    destruct (decide (Image.mode i1 = "F")) as [F1|N1];
      destruct (decide (Image.mode i2 = "F")) as [F2|N2].
    + congruence.
    + rewrite (bool_decide_eq_false_2 (Image.mode i1 <> "F")) by tauto.
      rewrite (bool_decide_eq_true_2 (Image.mode i2 <> "F")) by exact N2.
      eexists _, _, _. split; [reflexivity|].
      split; [eexists; split; split; reflexivity|].
      splits; reconcile_goal.
    + rewrite (bool_decide_eq_true_2 (Image.mode i1 <> "F")) by exact N1.
      rewrite (bool_decide_eq_false_2 (Image.mode i2 <> "F")) by tauto.
      eexists _, _, _. split; [reflexivity|].
      split; [eexists; split; split; reflexivity|].
      splits; reconcile_goal.
    + rewrite (bool_decide_eq_true_2 (Image.mode i1 <> "F")) by exact N1.
      rewrite (bool_decide_eq_true_2 (Image.mode i2 <> "F")) by exact N2.
      eexists _, _, _. split; [reflexivity|].
      split; [eexists; split; split; reflexivity|].
      splits; reconcile_goal.
Qed.

Lemma reconcile_sizes_spec k1 k2 w :
  exists j1 j2 w',
    reconcile_sizes k1 k2 w = (Ok (j1, j2), w')
    /\ sizes_reconciled w k1 k2 j1 j2 w'
    /\ quiet_extension w w'
    /\ Image.mode j1 = Image.mode k1 /\ Image.mode j2 = Image.mode k2
    /\ Image.size j1 = settled_size k1 k2 /\ Image.size j2 = settled_size k1 k2
    /\ (Image.size k1 = Image.size k2 -> j1 = k1 /\ j2 = k2 /\ w' = w).
Proof.
  unfold reconcile_sizes, sizes_reconciled, settled_size, common_size.
  destruct (decide (Image.size k1 = Image.size k2)) as [Eq|Ne].
  - rewrite bool_decide_eq_false_2 by tauto.
    exists k1, k2, w. splits; reconcile_goal.
  - rewrite bool_decide_eq_true_2 by exact Ne. cbv zeta.
    set (size := (Z.min (Image.size k1).1 (Image.size k2).1,
                  Z.min (Image.size k1).2 (Image.size k2).2)).
    destruct (decide (Image.size k1 = size)) as [S1|N1];
      destruct (decide (Image.size k2 = size)) as [S2|N2].
    + congruence.
    + rewrite (bool_decide_eq_false_2 (Image.size k1 <> size)) by tauto.
      rewrite (bool_decide_eq_true_2 (Image.size k2 <> size)) by exact N2.
      cbv [bind ret]. rewrite Image_crop_run.
      eexists _, _, _. split; [reflexivity|].
      split; [eexists; split; split; reflexivity|].
      subst size. splits; reconcile_goal.
    + rewrite (bool_decide_eq_true_2 (Image.size k1 <> size)) by exact N1.
      rewrite (bool_decide_eq_false_2 (Image.size k2 <> size)) by tauto.
      cbv [bind ret]. rewrite Image_crop_run.
      eexists _, _, _. split; [reflexivity|].
      split; [eexists; split; split; reflexivity|].
      subst size. splits; reconcile_goal.
    + rewrite (bool_decide_eq_true_2 (Image.size k1 <> size)) by exact N1.
      rewrite (bool_decide_eq_true_2 (Image.size k2 <> size)) by exact N2.
      cbv [bind ret]. rewrite Image_crop_run. cbv beta iota.
      rewrite Image_crop_run.
      eexists _, _, _. split; [reflexivity|].
      split; [eexists; split; split; reflexivity|].
      subst size. splits; reconcile_goal.
Qed.

Lemma settled_size_modes i1 i2 k1 k2 :
  Image.size k1 = Image.size i1 -> Image.size k2 = Image.size i2 ->
  settled_size k1 k2 = settled_size i1 i2.
Proof. intros E1 E2. unfold settled_size. now rewrite E1, E2. Qed.

Lemma reconcile_spec i1 i2 w :
  exists k1 k2 w1 j1 j2 w',
    reconcile i1 i2 w = (Ok (j1, j2), w')
    /\ modes_reconciled w i1 i2 k1 k2 w1
    /\ sizes_reconciled w1 k1 k2 j1 j2 w'
    /\ settled i1 i2 k1 k2 j1 j2
    /\ quiet_extension w w'
    /\ (Image.mode i1 = Image.mode i2 -> Image.size i1 = Image.size i2 ->
        j1 = i1 /\ j2 = i2 /\ w' = w).
Proof.
  destruct (reconcile_modes_spec i1 i2 w)
    as (k1 & k2 & w1 & E1 & R1 & Q1 & S1 & S2 & M1 & M2 & Same1).
  destruct (reconcile_sizes_spec k1 k2 w1)
    as (j1 & j2 & w2 & E2 & R2 & Q2 & N1 & N2 & T1 & T2 & Same2).
  rewrite (settled_size_modes i1 i2 k1 k2 S1 S2) in *.
  exists k1, k2, w1, j1, j2, w2. splits.
  - unfold reconcile. rewrite (bind_ok _ _ _ _ _ E1). exact E2.
  - exact R1.
  - exact R2.
  - unfold settled. splits; congruence.
  - now apply quiet_trans with w1.
  - intros Hm Hs. destruct (Same1 Hm) as (-> & -> & ->). now apply Same2.
Qed.

Lemma dispatch2_ok op mode j1 j2 w :
  imagingmath_has (op +:+ "_" +:+ Image.mode j1) = true ->
  dispatch2 op mode j1 j2 w =
  (Ok (_Operand (Image.mk (length (heap w)) (or_else mode (Image.mode j1))
                          (Image.size j1))),
   World (heap w ++
          [math_binop (op +:+ "_" +:+ Image.mode j1)
             (read (World (heap w ++
                           [core_new (or_else mode (Image.mode j1))
                                     (Image.size j1) None]) (calls w))
                   (Image.id j1))
             (read (World (heap w ++
                           [core_new (or_else mode (Image.mode j1))
                                     (Image.size j1) None]) (calls w))
                   (Image.id j2))])
         (calls w ++ [(op +:+ "_" +:+ Image.mode j1, length (heap w),
                       [Image.id j1; Image.id j2])])).
Proof.
  intros Hk. unfold dispatch2, lookup_kernel, _imagingmath.getattr.
  rewrite Hk. cbv [bind ret Image_new Image_load alloc _imagingmath.binop
                   Image.id heap calls].
  now rewrite insert_last.
Qed.

Lemma dispatch2_fail op mode j1 j2 w :
  imagingmath_has (op +:+ "_" +:+ Image.mode j1) = false ->
  dispatch2 op mode j1 j2 w =
  (Raise (TypeError ("bad operand type for '" +:+ op +:+ "'")),
   World (heap w ++ [core_new (or_else mode (Image.mode j1)) (Image.size j1) None])
         (calls w)).
Proof.
  intros Hk. unfold dispatch2, lookup_kernel, _imagingmath.getattr.
  now rewrite Hk.
Qed.

Lemma dispatch1_ok op mode j1 w :
  imagingmath_has (op +:+ "_" +:+ Image.mode j1) = true ->
  dispatch1 op mode j1 w =
  (Ok (_Operand (Image.mk (length (heap w)) (or_else mode (Image.mode j1))
                          (Image.size j1))),
   World (heap w ++
          [math_unop (op +:+ "_" +:+ Image.mode j1)
             (read (World (heap w ++
                           [core_new (or_else mode (Image.mode j1))
                                     (Image.size j1) None]) (calls w))
                   (Image.id j1))])
         (calls w ++ [(op +:+ "_" +:+ Image.mode j1, length (heap w),
                       [Image.id j1])])).
Proof.
  intros Hk. unfold dispatch1, lookup_kernel, _imagingmath.getattr.
  rewrite Hk. cbv [bind ret Image_new Image_load alloc _imagingmath.unop
                   Image.id heap calls].
  now rewrite insert_last.
Qed.

Lemma dispatch1_fail op mode j1 w :
  imagingmath_has (op +:+ "_" +:+ Image.mode j1) = false ->
  dispatch1 op mode j1 w =
  (Raise (TypeError ("bad operand type for '" +:+ op +:+ "'")),
   World (heap w ++ [core_new (or_else mode (Image.mode j1)) (Image.size j1) None])
         (calls w)).
Proof.
  intros Hk. unfold dispatch1, lookup_kernel, _imagingmath.getattr.
  now rewrite Hk.
Qed.

(** The binary [apply] on two operands that [__fixup] accepts: the
    reconciliation never fails, and the call ends in the dispatch on the
    reconciled images. *)
Lemma apply_binary_stages self op a b mode w i1 w1 i2 w2 :
  __fixup self a w = (Ok i1, w1) ->
  __fixup self b w1 = (Ok i2, w2) ->
  exists k1 k2 w3 j1 j2 w4,
    modes_reconciled w2 i1 i2 k1 k2 w3
    /\ sizes_reconciled w3 k1 k2 j1 j2 w4
    /\ settled i1 i2 k1 k2 j1 j2
    /\ quiet_extension w w4
    /\ quiet_extension w2 w4
    /\ apply self op a (Some b) mode w = dispatch2 op mode j1 j2 w4.
Proof.
  intros F1 F2.
  destruct (reconcile_spec i1 i2 w2)
    as (k1 & k2 & w3 & j1 & j2 & w4 & E & R1 & R2 & L & Q & _).
  exists k1, k2, w3, j1, j2, w4. splits; try assumption.
  - apply quiet_trans with w1; [now apply fixup_quiet in F1|].
    apply quiet_trans with w2; [now apply fixup_quiet in F2 | exact Q].
  - rewrite apply_binary_unfold, (bind_ok _ _ _ _ _ F1), (bind_ok _ _ _ _ _ F2).
    now rewrite (bind_ok _ _ _ _ _ E).
Qed.

Lemma apply_binary_spec self op a b mode w i1 w1 i2 w2 :
  __fixup self a w = (Ok i1, w1) ->
  __fixup self b w1 = (Ok i2, w2) ->
  exists k1 k2 j1 j2 w3,
    settled i1 i2 k1 k2 j1 j2
    /\ quiet_extension w w3
    /\ apply self op a (Some b) mode w = dispatch2 op mode j1 j2 w3.
Proof.
  intros F1 F2.
  destruct (apply_binary_stages self op a b mode w i1 w1 i2 w2 F1 F2)
    as (k1 & k2 & w3 & j1 & j2 & w4 & _ & _ & L & Q & _ & E).
  now exists k1, k2, j1, j2, w4.
Qed.

Lemma read_last (l : list pixbuf) b cs : read (World (l ++ [b]) cs) (length l) = b.
Proof.
  unfold read. cbn [heap]. rewrite lookup_app_r by lia.
  now rewrite Nat.sub_diag.
Qed.

Lemma read_old (l : list pixbuf) b cs cs' i :
  (i < length l)%nat -> read (World (l ++ [b]) cs) i = read (World l cs') i.
Proof. intros Hi. unfold read. cbn [heap]. now rewrite lookup_app_l. Qed.

Lemma read_kept w (b : pixbuf) cs i :
  (i < length (heap w))%nat -> read (World (heap w ++ [b]) cs) i = read w i.
Proof. intros Hi. unfold read. cbn [heap]. now rewrite lookup_app_l. Qed.

(** What the caller sees of a binary dispatch on two live images. *)
Lemma observe_dispatch2 op j1 j2 w :
  (Image.id j1 < length (heap w))%nat ->
  (Image.id j2 < length (heap w))%nat ->
  observe (lift_result (dispatch2 op None j1 j2 w)) =
  if imagingmath_has (op +:+ "_" +:+ Image.mode j1)
  then Ok (VImage (Image.mk (length (heap w)) (Image.mode j1) (Image.size j1)),
           Some (math_binop (op +:+ "_" +:+ Image.mode j1)
                   (read w (Image.id j1)) (read w (Image.id j2))))
  else Raise (TypeError ("bad operand type for '" +:+ op +:+ "'")).
Proof.
  intros L1 L2.
  destruct (imagingmath_has (op +:+ "_" +:+ Image.mode j1)) eqn:Hk.
  - rewrite (dispatch2_ok _ _ _ _ _ Hk). cbn [lift_result observe im Image.id].
    rewrite read_last, !(read_old _ _ _ (calls w)) by assumption.
    now destruct w.
  - now rewrite (dispatch2_fail _ _ _ _ _ Hk).
Qed.

Lemma length_push (l : list pixbuf) b : length (l ++ [b]) = S (length l).
Proof. rewrite length_app. simpl. lia. Qed.



(** The kernel of a binary [apply] on two images of the store that agree in
    mode and differ in size runs on their crops to the common size. *)
Lemma apply_crops_observed self op a b w i1 w1 i2 w2 :
  __fixup self a w = (Ok i1, w1) ->
  __fixup self b w1 = (Ok i2, w2) ->
  Image.mode i1 = Image.mode i2 ->
  Image.size i1 <> Image.size i2 ->
  (Image.id i1 < length (heap w2))%nat ->
  (Image.id i2 < length (heap w2))%nat ->
  observe (lift_result (apply self op a (Some b) None w)) =
  binary_result op (Image.mode i1)
    (common_size (Image.size i1) (Image.size i2))
    (length (heap w2)
     + crops (common_size (Image.size i1) (Image.size i2)) i1
     + crops (common_size (Image.size i1) (Image.size i2)) i2)
    (top_left_pixels (common_size (Image.size i1) (Image.size i2)) w2 i1)
    (top_left_pixels (common_size (Image.size i1) (Image.size i2)) w2 i2).
Proof.
  intros F1 F2 Hm Hne L1 L2.
  destruct (apply_binary_stages self op a b None w i1 w1 i2 w2 F1 F2)
    as (k1 & k2 & w3 & j1 & j2 & w4 & R1 & R2 & _ & _ & _ & E).
  rewrite E. clear E. unfold modes_reconciled in R1.
  destruct (decide (Image.mode i1 = Image.mode i2)) as [_|]; [|contradiction].
  destruct R1 as (-> & -> & ->).
  unfold sizes_reconciled in R2. cbv zeta in R2.
  destruct (decide (Image.size i1 = Image.size i2)) as [|_]; [contradiction|].
  destruct R2 as (wa & A & B).
  unfold binary_result, top_left_pixels, crops.
  set (size := common_size (Image.size i1) (Image.size i2)) in *.
  destruct (decide (Image.size i1 = size)) as [S1|N1];
    destruct (decide (Image.size i2 = size)) as [S2|N2].
  - congruence.
  - destruct A as [-> ->], B as [-> ->].
    rewrite observe_dispatch2 by (cbn [heap Image.id]; rewrite length_push; lia).
    cbn [Image.mode Image.size Image.id heap calls].
    rewrite length_push, read_last, (read_kept w2) by exact L1.
    rewrite S1, Nat.add_0_r, Nat.add_1_r. reflexivity.
  - destruct A as [-> ->], B as [-> ->].
    rewrite observe_dispatch2 by (cbn [heap Image.id]; rewrite length_push; lia).
    cbn [Image.mode Image.size Image.id heap calls].
    rewrite length_push, read_last, (read_kept w2) by exact L2.
    rewrite Nat.add_0_r, Nat.add_1_r. reflexivity.
  - destruct A as [-> ->], B as [-> ->].
    rewrite observe_dispatch2
      by (cbn [heap Image.id]; rewrite !length_push; lia).
    cbn [Image.mode Image.size Image.id heap calls].
    rewrite (read_kept w2 _ _ _ L2), read_last.
    rewrite (read_old _ _ _ (calls w2)) by (rewrite length_push; lia).
    rewrite read_last, !length_push.
    rewrite Nat.add_1_r, Nat.add_1_r. reflexivity.
Qed.

(** C6.  When the two normalized operands of a binary operation differ in
    size, the images that the reconciliation of the modes hands on keep
    their sizes, and each of them whose size is not the element-wise minimum
    of the two sizes is cropped to that minimum from the upper left corner:
    a new image takes its place whose buffer is the crop with the box
    [(0, 0, width, height)] of its buffer; one that has the minimum size
    already is used as it is.  The difference raises nothing (the call
    fails only when there is no kernel), the kernel runs on these two
    images and the result has the minimum size.  For two images of the
    store of the same mode, the caller sees what the kernel computes from
    the two crops. *)
Theorem apply_crops_to_common_size self op a b mode w i1 w1 i2 w2 :
  __fixup self a w = (Ok i1, w1) ->
  __fixup self b w1 = (Ok i2, w2) ->
  Image.size i1 <> Image.size i2 ->
  (exists k1 k2 w3 j1 wa j2 w4,
    modes_reconciled w2 i1 i2 k1 k2 w3
    /\ Image.size k1 = Image.size i1 /\ Image.size k2 = Image.size i2
    /\ (if decide (Image.size i1 = common_size (Image.size i1) (Image.size i2))
        then unchanged w3 k1 j1 wa
        else cropped (common_size (Image.size i1) (Image.size i2)) w3 k1 j1 wa)
    /\ (if decide (Image.size i2 = common_size (Image.size i1) (Image.size i2))
        then unchanged wa k2 j2 w4
        else cropped (common_size (Image.size i1) (Image.size i2)) wa k2 j2 w4)
    /\ Image.size j1 = common_size (Image.size i1) (Image.size i2)
    /\ Image.size j2 = common_size (Image.size i1) (Image.size i2)
    /\ apply self op a (Some b) mode w = dispatch2 op mode j1 j2 w4
    /\ (imagingmath_has (op +:+ "_" +:+ common_mode i1 i2) = true ->
        exists out w',
          apply self op a (Some b) mode w = (Ok out, w')
          /\ im out = Image.mk (length (heap w4))
                        (or_else mode (common_mode i1 i2))
                        (common_size (Image.size i1) (Image.size i2))
          /\ calls w' =
             (calls w ++ [(op +:+ "_" +:+ common_mode i1 i2, Image.id (im out),
                           [Image.id j1; Image.id j2])])%list
          /\ ((Image.id j1 < length (heap w4))%nat ->
              (Image.id j2 < length (heap w4))%nat ->
              heap w' =
              (heap w4 ++ [math_binop (op +:+ "_" +:+ common_mode i1 i2)
                             (read w4 (Image.id j1))
                             (read w4 (Image.id j2))])%list))
    /\ (imagingmath_has (op +:+ "_" +:+ common_mode i1 i2) = false ->
        exists w',
          apply self op a (Some b) mode w =
          (Raise (TypeError ("bad operand type for '" +:+ op +:+ "'")), w')))
  /\ (mode = None ->
      Image.mode i1 = Image.mode i2 ->
      (Image.id i1 < length (heap w2))%nat ->
      (Image.id i2 < length (heap w2))%nat ->
      observe (lift_result (apply self op a (Some b) mode w)) =
      binary_result op (Image.mode i1)
        (common_size (Image.size i1) (Image.size i2))
        (length (heap w2)
         + crops (common_size (Image.size i1) (Image.size i2)) i1
         + crops (common_size (Image.size i1) (Image.size i2)) i2)
        (top_left_pixels (common_size (Image.size i1) (Image.size i2)) w2 i1)
        (top_left_pixels (common_size (Image.size i1) (Image.size i2)) w2 i2)).
Proof.
  intros F1 F2 Hne. split.
  - destruct (apply_binary_stages self op a b mode w i1 w1 i2 w2 F1 F2)
      as (k1 & k2 & w3 & j1 & j2 & w4 & R1 & R2 & L & [_ Q] & _ & E).
    destruct L as (S1 & S2 & _ & _ & N1 & _ & T1 & T2).
    assert (HS : settled_size i1 i2 = common_size (Image.size i1) (Image.size i2))
      by (unfold settled_size; now destruct (decide _)).
    rewrite HS in *.
    unfold sizes_reconciled in R2. cbv zeta in R2. rewrite S1, S2 in R2.
    destruct (decide (Image.size i1 = Image.size i2)) as [|_]; [contradiction|].
    destruct R2 as (wa & A & B).
    exists k1, k2, w3, j1, wa, j2, w4. splits; try assumption.
    + intros Hk. rewrite E.
      pose proof (dispatch2_ok op mode j1 j2 w4) as D. rewrite N1, T1 in D.
      specialize (D Hk). eexists _, _. split; [exact D|].
      split; [reflexivity|]. split; [cbn; now rewrite Q|].
      intros L1 L2. cbn [heap].
      rewrite !(read_old _ _ _ (calls w4)) by assumption.
      now destruct w4.
    + intros Hk. rewrite E, dispatch2_fail by now rewrite N1.
      eexists. reflexivity.
  - intros -> Hm L1 L2.
    exact (apply_crops_observed self op a b w i1 w1 i2 w2 F1 F2 Hm Hne L1 L2).
Qed.

(** ** Results are new images *)

Lemma apply_fixup1_raise self op a b mode w e w1 :
  __fixup self a w = (Raise e, w1) ->
  apply self op a b mode w = (Raise e, w1).
Proof. intros F1. unfold apply. now rewrite (bind_raise _ _ _ _ _ F1). Qed.

Lemma apply_fixup2_raise self op a b mode w i1 w1 e w2 :
  __fixup self a w = (Ok i1, w1) ->
  __fixup self b w1 = (Raise e, w2) ->
  apply self op a (Some b) mode w = (Raise e, w2).
Proof.
  intros F1 F2. rewrite apply_binary_unfold, (bind_ok _ _ _ _ _ F1).
  now rewrite (bind_raise _ _ _ _ _ F2).
Qed.

Lemma fresh_in_extension (w w3 : world) (x : pixbuf) :
  heap w `prefix_of` heap w3 ->
  heap w `prefix_of` (heap w3 ++ [x])%list
  /\ (length (heap w) <= length (heap w3) < length (heap w3 ++ [x])%list)%nat.
Proof.
  intros P. split; [now apply prefix_app_r|].
  apply prefix_length in P. rewrite length_app. simpl. lia.
Qed.

(** A call of [apply] writes to no buffer that existed before, and the
    operand it returns wraps an image allocated during the call. *)
Lemma apply_fresh self op a b mode w :
  returns_fresh (apply self op a b mode) w.
Proof.
  intros r w' E.
  destruct (__fixup self a w) as [[i1|e] w1] eqn:F1.
  2:{ rewrite (apply_fixup1_raise _ _ _ _ _ _ _ _ F1) in E.
      injection E as <- <-. apply fixup_quiet in F1 as [P _].
      split; [exact P | discriminate]. }
  pose proof (fixup_quiet _ _ _ _ _ F1) as [P1 _].
  destruct b as [b|].
  - destruct (__fixup self b w1) as [[i2|e] w2] eqn:F2.
    2:{ rewrite (apply_fixup2_raise _ _ _ _ _ _ _ _ _ _ F1 F2) in E.
        injection E as <- <-. apply fixup_quiet in F2 as [P2 _].
        split; [now transitivity (heap w1) | discriminate]. }
    destruct (apply_binary_spec self op a b mode w i1 w1 i2 w2 F1 F2)
      as (k1 & k2 & j1 & j2 & w3 & _ & [P _] & E').
    rewrite E' in E.
    destruct (imagingmath_has (op +:+ "_" +:+ Image.mode j1)) eqn:Hk.
    + rewrite (dispatch2_ok _ _ _ _ _ Hk) in E. injection E as <- <-.
      cbn [heap]. destruct (fresh_in_extension w w3
        (math_binop (op +:+ "_" +:+ Image.mode j1)
           (read (World (heap w3 ++
                         [core_new (or_else mode (Image.mode j1))
                                   (Image.size j1) None]) (calls w3))
                 (Image.id j1))
           (read (World (heap w3 ++
                         [core_new (or_else mode (Image.mode j1))
                                   (Image.size j1) None]) (calls w3))
                 (Image.id j2))) P) as [P' L].
      split; [exact P'|]. intros out [= <-]. exact L.
    + rewrite (dispatch2_fail _ _ _ _ _ Hk) in E. injection E as <- <-.
      split; [now apply prefix_app_r | discriminate].
  - rewrite apply_unary_unfold, (bind_ok _ _ _ _ _ F1) in E.
    destruct (imagingmath_has (op +:+ "_" +:+ Image.mode i1)) eqn:Hk.
    + rewrite (dispatch1_ok _ _ _ _ Hk) in E. injection E as <- <-.
      cbn [heap]. destruct (fresh_in_extension w w1
        (math_unop (op +:+ "_" +:+ Image.mode i1)
           (read (World (heap w1 ++
                         [core_new (or_else mode (Image.mode i1))
                                   (Image.size i1) None]) (calls w1))
                 (Image.id i1))) P1) as [P' L].
      split; [exact P'|]. intros out [= <-]. exact L.
    + rewrite (dispatch1_fail _ _ _ _ Hk) in E. injection E as <- <-.
      split; [now apply prefix_app_r | discriminate].
Qed.

(** C9, as the code has it.  Every operator method except unary plus goes
    through [apply]: it leaves the buffers of the store as they were and
    returns an operand on a newly allocated image.  Unary plus returns its
    operand itself and allocates nothing. *)
Theorem operators_return_fresh_results (self : Operand) (other : value)
    (w : world) :
  __pos__ self w = (Ok self, w)
  /\ returns_fresh (__abs__ self) w
  /\ (forall op, op <> UAdd -> returns_fresh (unary_method op self) w)
  /\ (forall op, returns_fresh (binary_method op self other) w)
  /\ (forall op method, reflected_method op = Some method ->
        returns_fresh (method self other) w)
  /\ (forall op, returns_fresh (compare_method op self other) w).
Proof.
  splits.
  - reflexivity.
  - apply apply_fresh.
  - intros [] Hop; [contradiction | apply apply_fresh | apply apply_fresh].
  - intros []; apply apply_fresh.
  - intros [] method [= <-]; apply apply_fresh.
  - intros []; apply apply_fresh.
Qed.

(** ** Operators between an operand and a number *)

Lemma exec_num depth fr c : exec depth fr None (ENum c) = ret (VNum c).
Proof. now destruct depth. Qed.

Lemma exec_binary depth fr op l r :
  exec depth fr None (EBinary op l r) =
  bind (exec depth fr None l) (fun a =>
    bind (exec depth fr None r) (fun b => binary op a b)).
Proof. now destruct depth. Qed.

Lemma scan_name_num args op x c v :
  args !! x = Some v ->
  scan args (compile (EBinary op (EName x) (ENum c))) = Ok tt
  /\ scan args (compile (EBinary op (ENum c) (EName x))) = Ok tt.
Proof.
  intros Hx. unfold compile. cbn [compile_in].
  destruct (String.eqb x "__debug__"); [now split|]. rewrite member_nil.
  cbn [app]. rewrite !scan_unfold. cbn [scan_consts scan_names].
  rewrite bool_decide_eq_false_2 by congruence. now split.
Qed.

Lemma eval_operand_number op x image c _dict kw w :
  check_keys (keys _dict kw) = Ok tt ->
  bound_to (_dict ++ kw) x = Some (PImage image) ->
  eval (EBinary op (EName x) (ENum c)) _dict kw w =
  lift_result (binary_method op (_Operand image) (VNum c) w).
Proof.
  intros Hk Hb.
  assert (Hx : build_args _dict kw !! x = Some (VOperand (_Operand image)))
    by now rewrite build_args_lookup, Hb.
  rewrite eval_valid; [|exact Hk|now apply (scan_name_num _ op x c _ Hx)].
  rewrite exec_binary, exec_name, exec_num
    by exact (bound_not_debug _ _ _ _ Hk Hb).
  unfold load_name, eval_frame, f_locals. rewrite Hx.
  cbv [bind lift ret binary].
  now destruct (binary_method op (_Operand image) (VNum c) w) as [[o|e] w'].
Qed.

Lemma eval_number_operand op x image c _dict kw w :
  check_keys (keys _dict kw) = Ok tt ->
  bound_to (_dict ++ kw) x = Some (PImage image) ->
  eval (EBinary op (ENum c) (EName x)) _dict kw w =
  match reflected_method op with
  | Some method => lift_result (method (_Operand image) (VNum c) w)
  | None => (Raise (TypeError ("unsupported operand type(s) for " +:+ symbol op)), w)
  end.
Proof.
  intros Hk Hb.
  assert (Hx : build_args _dict kw !! x = Some (VOperand (_Operand image)))
    by now rewrite build_args_lookup, Hb.
  rewrite eval_valid; [|exact Hk|now apply (scan_name_num _ op x c _ Hx)].
  rewrite exec_binary, exec_name, exec_num
    by exact (bound_not_debug _ _ _ _ Hk Hb).
  unfold load_name, eval_frame, f_locals. rewrite Hx.
  cbv [bind lift ret binary].
  destruct (reflected_method op) as [method|]; [|reflexivity].
  now destruct (method (_Operand image) (VNum c) w) as [[o|e] w'].
Qed.

Lemma apply_binary_same self op a b w i1 w1 i2 w2 :
  __fixup self a w = (Ok i1, w1) ->
  __fixup self b w1 = (Ok i2, w2) ->
  Image.mode i1 = Image.mode i2 ->
  Image.size i1 = Image.size i2 ->
  apply self op a (Some b) None w = dispatch2 op None i1 i2 w2.
Proof.
  intros F1 F2 Hm Hs.
  rewrite apply_binary_unfold, (bind_ok _ _ _ _ _ F1), (bind_ok _ _ _ _ _ F2).
  destruct (reconcile_spec i1 i2 w2)
    as (k1 & k2 & wa & j1 & j2 & w3 & E & _ & _ & _ & _ & Same).
  destruct (Same Hm Hs) as (-> & -> & ->). now rewrite (bind_ok _ _ _ _ _ E).
Qed.

Lemma read_two (l : list pixbuf) a b cs :
  read (World ((l ++ [a]) ++ [b]) cs) (length l) = a
  /\ read (World ((l ++ [a]) ++ [b]) cs) (length (l ++ [a])) = b.
Proof.
  split; [|apply read_last].
  rewrite (read_old _ _ _ cs) by (rewrite length_app; simpl; lia).
  apply read_last.
Qed.

(** With commutative [add] kernels, [x + c] and [c + x] show the caller the
    same result for an image [x] of the store and a number [c]. *)
Lemma add_constant_commutes x image c _dict kw w :
  check_keys (keys _dict kw) = Ok tt ->
  bound_to (_dict ++ kw) x = Some (PImage image) ->
  (Image.id image < length (heap w))%nat ->
  (forall a b, math_binop "add_I" a b = math_binop "add_I" b a) ->
  (forall a b, math_binop "add_F" a b = math_binop "add_F" b a) ->
  observe (eval (EBinary Add (EName x) (ENum c)) _dict kw w) =
  observe (eval (EBinary Add (ENum c) (EName x)) _dict kw w).
Proof.
  intros Hk Hb Hlive CI CF.
  rewrite (eval_operand_number Add x image c _ _ w Hk Hb),
          (eval_number_operand Add x image c _ _ w Hk Hb).
  cbn [reflected_method binary_method]. unfold __add__, __radd__.
  set (X := _Operand image).
  assert (Hlen : forall (a b : pixbuf),
            (Image.id image < length (heap w ++ [a]))%nat
            /\ (length (heap w) < length (heap w ++ [a]))%nat
            /\ (length (heap w) < length ((heap w ++ [a]) ++ [b]))%nat
            /\ (length (heap w ++ [a]) < length ((heap w ++ [a]) ++ [b]))%nat
            /\ length ((heap w ++ [a]) ++ [b]) = S (S (length (heap w))))
    by (intros a b; rewrite !length_app; simpl; lia).
  destruct (decide (In (Image.mode image) ["1"; "L"])) as [HL|HL].
  - (* x is converted to mode I, c becomes an image in mode I *)
    assert (HI : In (Image.mode (im X)) ["1"; "L"; "I"]) by (simpl in *; tauto).
    pose proof (fixup_operand_convert X X w HL) as F1.
    rewrite Image_convert_run in F1.
    match type of F1 with _ = (_, ?w1) =>
      pose proof (fixup_number_int X c w1 HI) as F2 end.
    rewrite (apply_binary_same X "add" _ _ w _ _ _ _ F1 F2 eq_refl eq_refl).
    pose proof (fixup_number_int X c w HI) as G1.
    match type of G1 with _ = (_, ?w1) =>
      pose proof (fixup_operand_convert X X w1 HL) as G2 end.
    rewrite Image_convert_run in G2.
    rewrite (apply_binary_same X "add" _ _ w _ _ _ _ G1 G2 eq_refl eq_refl).
    clear F1 F2 G1 G2.
    rewrite !observe_dispatch2 by (cbn; apply Hlen).
    cbn [Image.mode Image.size Image.id heap calls].
    change ("add" +:+ "_" +:+ "I") with "add_I".
    destruct (imagingmath_has "add_I"); [|reflexivity].
    rewrite (read_kept w _ _ _ Hlive).
    rewrite !(proj1 (read_two _ _ _ _)), !(proj2 (read_two _ _ _ _)).
    rewrite !(proj2 (proj2 (proj2 (proj2 (Hlen _ _))))).
    now rewrite CI.
  - destruct (decide (In (Image.mode image) ["I"; "F"])) as [HP|HP].
    + (* x is used as it is *)
      pose proof (fixup_operand_pass X X w HP) as F1.
      destruct (decide (Image.mode image = "I")) as [EI|NI].
      * assert (HI : In (Image.mode (im X)) ["1"; "L"; "I"])
          by (cbn [im X]; rewrite EI; right; right; now left).
        pose proof (fixup_number_int X c w HI) as F2.
        rewrite (apply_binary_same X "add" _ _ w _ _ _ _ F1 F2 EI eq_refl).
        match type of F2 with _ = (_, ?w1) =>
          pose proof (fixup_operand_pass X X w1 HP) as G2 end.
        rewrite (apply_binary_same X "add" _ _ w _ _ _ _ F2 G2 (eq_sym EI) eq_refl).
        clear F1 F2 G2.
        rewrite !observe_dispatch2 by (cbn; apply (Hlen _ (core_new "" (0, 0) None))).
        cbn [Image.mode Image.size Image.id heap calls im X].
        rewrite EI. change ("add" +:+ "_" +:+ "I") with "add_I".
        destruct (imagingmath_has "add_I"); [|reflexivity].
        rewrite (read_kept w _ _ _ Hlive), read_last.
        now rewrite CI.
      * assert (EF : Image.mode image = "F")
          by (simpl in HP; destruct HP as [E|[E|[]]]; congruence).
        assert (HI : ~ In (Image.mode (im X)) ["1"; "L"; "I"]).
        { cbn [im X]. rewrite EF. simpl. intros [E|[E|[E|[]]]]; discriminate. }
        pose proof (fixup_number_float X c w HI) as F2.
        rewrite (apply_binary_same X "add" _ _ w _ _ _ _ F1 F2 EF eq_refl).
        match type of F2 with _ = (_, ?w1) =>
          pose proof (fixup_operand_pass X X w1 HP) as G2 end.
        rewrite (apply_binary_same X "add" _ _ w _ _ _ _ F2 G2 (eq_sym EF) eq_refl).
        clear F1 F2 G2.
        rewrite !observe_dispatch2 by (cbn; apply (Hlen _ (core_new "" (0, 0) None))).
        cbn [Image.mode Image.size Image.id heap calls im X].
        rewrite EF. change ("add" +:+ "_" +:+ "F") with "add_F".
        destruct (imagingmath_has "add_F"); [|reflexivity].
        rewrite (read_kept w _ _ _ Hlive), read_last.
        now rewrite CF.
    + (* the mode of x is not supported: both orders raise the same error *)
      assert (HR : ~ In (Image.mode (im X)) ["1"; "L"; "I"; "F"])
        by (cbn [im X]; simpl in *; tauto).
      rewrite (apply_fixup1_raise X "add" _ _ None w _ _
                 (fixup_operand_reject X X w HR)).
      destruct (__fixup X (VNum c) w) as [[i1|e] w1] eqn:G1.
      * rewrite (apply_fixup2_raise X "add" _ _ None w _ _ _ _ G1
                   (fixup_operand_reject X X w1 HR)).
        reflexivity.
      * exfalso. unfold __fixup in G1.
        destruct (_ && _) in G1; discriminate.
Qed.

Lemma fixup_operand_any_receiver self self' o w :
  __fixup self (VOperand o) w = __fixup self' (VOperand o) w.
Proof. reflexivity. Qed.

(** Between two operands the receiver of [apply] plays no part. *)
Lemma apply_operands_any_receiver self self' op a b mode w :
  apply self op (VOperand a) (Some (VOperand b)) mode w =
  apply self' op (VOperand a) (Some (VOperand b)) mode w.
Proof. now rewrite !apply_binary_unfold. Qed.

(** C8, as the code has it.  The operators [+ - * / % ** & | ^] have a
    reflected method: it hands the operands to [apply] in the order in
    which they are written, under the same operation name as the direct
    method, and between two operands it is the direct method of the left
    one.  [<<] and [>>] have no reflected method: a number on their left
    raises [TypeError].  For an image [x] of the store and a number [c],
    [x + c] and [c + x] show the caller the same result when the [add]
    kernels are commutative. *)
Theorem reflected_operators (self : Operand) (other : value) (w : world) :
  (forall op method, reflected_method op = Some method ->
     method self other w =
       apply self (operation op) other (Some (VOperand self)) None w
     /\ binary_method op self other w =
       apply self (operation op) (VOperand self) (Some other) None w
     /\ forall left, method self (VOperand left) w =
                    binary_method op left (VOperand self) w)
  /\ (forall op, reflected_method op = None <-> op = LShift \/ op = RShift)
  /\ (forall op x image c _dict kw,
        check_keys (keys _dict kw) = Ok tt ->
        bound_to (_dict ++ kw) x = Some (PImage image) ->
        eval (EBinary op (ENum c) (EName x)) _dict kw w =
        match reflected_method op with
        | Some _ =>
            lift_result (apply (_Operand image) (operation op) (VNum c)
                           (Some (VOperand (_Operand image))) None w)
        | None =>
            (Raise (TypeError ("unsupported operand type(s) for " +:+ symbol op)),
             w)
        end)
  /\ (forall x image c _dict kw,
        check_keys (keys _dict kw) = Ok tt ->
        bound_to (_dict ++ kw) x = Some (PImage image) ->
        (Image.id image < length (heap w))%nat ->
        (forall a b, math_binop "add_I" a b = math_binop "add_I" b a) ->
        (forall a b, math_binop "add_F" a b = math_binop "add_F" b a) ->
        observe (eval (EBinary Add (EName x) (ENum c)) _dict kw w) =
        observe (eval (EBinary Add (ENum c) (EName x)) _dict kw w)).
Proof.
  splits.
  - intros [] method [= <-]; splits; try reflexivity;
      intros left; apply apply_operands_any_receiver.
  - intros []; split; (discriminate || tauto || (intros [|]; discriminate)).
  - intros op x image c _dict kw Hk Hb.
    rewrite (eval_number_operand op x image c _ _ w Hk Hb).
    now destruct op.
  - intros x image c _dict kw. apply add_constant_commutes.
Qed.

End Theory.

(** * Further properties of the module *)

Section More.
Context `{Imaging}.

Ltac conjuncts := repeat match goal with |- _ /\ _ => split end.

(** A name at hand is not [__debug__]: it is written out, or it is a key
    that has passed the validation. *)
Ltac names := solve [discriminate | assumption | eauto using bound_not_debug].

(** The scan of the code of an expression whose names are all keys of the
    namespace, or [abs]. *)
Ltac scan_names_goal :=
  unfold compile; cbn [compile_in List.map concat app fst snd];
  repeat match goal with
         | |- context [String.eqb ?x "__debug__"] =>
             destruct (String.eqb x "__debug__")
         end;
  rewrite ?member_nil; cbn [app fst snd];
  rewrite ?scan_unfold; cbn [scan_consts scan_names];
  rewrite ?scan_unfold; cbn [scan_consts scan_names];
  rewrite ?andb_false_r;
  rewrite ?bool_decide_eq_false_2 by congruence; reflexivity.

(** ** The outcome of [apply] *)

Lemma common_mode_normal i1 i2 :
  (Image.mode i1 = "I" \/ Image.mode i1 = "F") ->
  (Image.mode i2 = "I" \/ Image.mode i2 = "F") ->
  common_mode i1 i2 = "I" \/ common_mode i1 i2 = "F".
Proof. intros M1 M2. unfold common_mode. destruct (decide _); tauto. Qed.

(** A call of [apply] that returns has looked up a kernel for mode I or F,
    has logged one invocation of it, writing to the image returned, and
    the mode of that image is the output mode asked for, or else the mode
    of the kernel.  A call that raises has invoked no kernel. *)
Lemma apply_outcome self op a b mode w r w' :
  apply self op a b mode w = (r, w') ->
  match r with
  | Ok out =>
      exists m ins,
        (m = "I" \/ m = "F")
        /\ imagingmath_has (op +:+ "_" +:+ m) = true
        /\ Image.mode (im out) = or_else mode m
        /\ calls w' = (calls w ++ [(op +:+ "_" +:+ m, Image.id (im out), ins)])%list
        /\ length ins = match b with Some _ => 2%nat | None => 1%nat end
  | Raise _ => calls w' = calls w
  end.
Proof.
  intros E.
  destruct (__fixup self a w) as [[i1|e] w1] eqn:F1.
  2:{ rewrite (apply_fixup1_raise _ _ _ _ _ _ _ _ F1) in E.
      injection E as <- <-. now apply fixup_quiet in F1 as [_ C]. }
  pose proof (fixup_quiet _ _ _ _ _ F1) as [_ C1].
  pose proof (fixup_mode _ _ _ _ _ F1) as M1.
  destruct b as [b|].
  - destruct (__fixup self b w1) as [[i2|e] w2] eqn:F2.
    2:{ rewrite (apply_fixup2_raise _ _ _ _ _ _ _ _ _ _ F1 F2) in E.
        injection E as <- <-. apply fixup_quiet in F2 as [_ C2]. congruence. }
    pose proof (fixup_mode _ _ _ _ _ F2) as M2.
    destruct (apply_binary_spec self op a b mode w i1 w1 i2 w2 F1 F2)
      as (k1 & k2 & j1 & j2 & w3 & R & [_ Q] & E').
    destruct R as (_ & _ & _ & _ & N1 & _ & _ & _).
    rewrite E' in E.
    destruct (imagingmath_has (op +:+ "_" +:+ Image.mode j1)) eqn:Hk.
    + rewrite (dispatch2_ok _ _ _ _ _ Hk) in E. injection E as <- <-.
      exists (Image.mode j1), [Image.id j1; Image.id j2].
      rewrite N1 at 1 2. conjuncts; try reflexivity.
      * now apply common_mode_normal.
      * exact Hk.
      * cbn. now rewrite Q.
    + rewrite (dispatch2_fail _ _ _ _ _ Hk) in E. injection E as <- <-.
      exact Q.
  - rewrite apply_unary_unfold, (bind_ok _ _ _ _ _ F1) in E.
    destruct (imagingmath_has (op +:+ "_" +:+ Image.mode i1)) eqn:Hk.
    + rewrite (dispatch1_ok _ _ _ _ Hk) in E. injection E as <- <-.
      exists (Image.mode i1), [Image.id i1]. conjuncts; try reflexivity.
      * exact M1.
      * exact Hk.
      * cbn. now rewrite C1.
    + rewrite (dispatch1_fail _ _ _ _ Hk) in E. injection E as <- <-.
      exact C1.
Qed.

Lemma apply_one_kernel_call self op a b mode :
  one_kernel_call (apply self op a b mode).
Proof.
  intros w r w' E. apply apply_outcome in E. destruct r as [out|e]; [|exact E].
  destruct E as (m & ins & _ & _ & _ & C & _). eauto.
Qed.

(** X1.  Every operator method other than unary plus, and each of the
    helpers [equal], [notequal], [min] and [max], invokes exactly one kernel
    when it returns, with the returned image as output, and none when it
    raises. *)
Theorem operators_invoke_one_kernel (self : Operand) (other : value) :
  one_kernel_call (__abs__ self)
  /\ (forall op, op <> UAdd -> one_kernel_call (unary_method op self))
  /\ (forall op, one_kernel_call (binary_method op self other))
  /\ (forall op method, reflected_method op = Some method ->
        one_kernel_call (method self other))
  /\ (forall op, one_kernel_call (compare_method op self other))
  /\ one_kernel_call (imagemath_equal self other)
  /\ one_kernel_call (imagemath_notequal self other)
  /\ one_kernel_call (imagemath_min self other)
  /\ one_kernel_call (imagemath_max self other).
Proof.
  conjuncts; try apply apply_one_kernel_call.
  - intros [] Hop; [contradiction | |]; apply apply_one_kernel_call.
  - intros []; apply apply_one_kernel_call.
  - intros [] method [= <-]; apply apply_one_kernel_call.
  - intros []; apply apply_one_kernel_call.
Qed.

(** ** Errors *)

Lemma fixup_raises self o w e w' :
  __fixup self (VOperand o) w = (Raise e, w') ->
  exists mode, e = ValueError ("unsupported mode: " +:+ mode).
Proof.
  intros E. unfold __fixup in E.
  destruct (member (Image.mode (im o)) ["1"; "L"]);
    [rewrite Image_convert_run in E; discriminate|].
  destruct (member (Image.mode (im o)) ["I"; "F"]); [discriminate|].
  injection E as <- _. eauto.
Qed.

Lemma apply_raises self op a b mode w e w' :
  apply self op (VOperand a) (option_map VOperand b) mode w = (Raise e, w') ->
  operator_error op e.
Proof.
  intros E.
  destruct (__fixup self (VOperand a) w) as [[i1|e1] w1] eqn:F1.
  2:{ rewrite (apply_fixup1_raise _ _ _ _ _ _ _ _ F1) in E.
      injection E as <- _. left. exact (fixup_raises _ _ _ _ _ F1). }
  destruct b as [b|]; cbn [option_map] in E.
  - destruct (__fixup self (VOperand b) w1) as [[i2|e2] w2] eqn:F2.
    2:{ rewrite (apply_fixup2_raise _ _ _ _ _ _ _ _ _ _ F1 F2) in E.
        injection E as <- _. left. exact (fixup_raises _ _ _ _ _ F2). }
    destruct (apply_binary_spec self op _ _ mode w i1 w1 i2 w2 F1 F2)
      as (k1 & k2 & j1 & j2 & w3 & _ & _ & E').
    rewrite E' in E.
    destruct (imagingmath_has (op +:+ "_" +:+ Image.mode j1)) eqn:Hk.
    + rewrite (dispatch2_ok _ _ _ _ _ Hk) in E. discriminate.
    + rewrite (dispatch2_fail _ _ _ _ _ Hk) in E. injection E as <- _.
      now right.
  - rewrite apply_unary_unfold, (bind_ok _ _ _ _ _ F1) in E.
    destruct (imagingmath_has (op +:+ "_" +:+ Image.mode i1)) eqn:Hk.
    + rewrite (dispatch1_ok _ _ _ _ Hk) in E. discriminate.
    + rewrite (dispatch1_fail _ _ _ _ Hk) in E. injection E as <- _.
      now right.
Qed.

(** X2.  Between two operands, an operator method raises nothing but
    [ValueError] for an unsupported mode and [TypeError] for a missing
    kernel, the latter naming the operation. *)
Theorem operator_errors (self other : Operand) (w : world) :
  (forall e w', __abs__ self w = (Raise e, w') -> operator_error "abs" e)
  /\ (forall e w', __neg__ self w = (Raise e, w') -> operator_error "neg" e)
  /\ (forall e w', __invert__ self w = (Raise e, w') ->
        operator_error "invert" e)
  /\ (forall op e w',
        binary_method op self (VOperand other) w = (Raise e, w') ->
        operator_error (operation op) e)
  /\ (forall op method e w',
        reflected_method op = Some method ->
        method self (VOperand other) w = (Raise e, w') ->
        operator_error (operation op) e)
  /\ (forall op e w',
        compare_method op self (VOperand other) w = (Raise e, w') ->
        operator_error (comparison op) e).
Proof.
  conjuncts.
  - intros e w'. exact (apply_raises self "abs" self None None w e w').
  - intros e w'. exact (apply_raises self "neg" self None None w e w').
  - intros e w'. exact (apply_raises self "invert" self None None w e w').
  - intros [] e w'; exact (apply_raises self _ self (Some other) None w e w').
  - intros [] method e w' [= <-];
      exact (apply_raises self _ other (Some self) None w e w').
  - intros [] e w'; exact (apply_raises self _ self (Some other) None w e w').
Qed.

(** X3.  An operand whose mode is none of 1, L, I and F makes every unary
    operator but plus, and every binary operator and comparison that has it
    on the left, raise [ValueError] naming the mode; the store is left as it
    was. *)
Theorem unsupported_mode_rejected (self : Operand) (other : value) (w : world) :
  ~ In (Image.mode (im self)) ["1"; "L"; "I"; "F"] ->
  (forall m, In m [__abs__; __neg__; __invert__] ->
     m self w =
     (Raise (ValueError ("unsupported mode: " +:+ Image.mode (im self))), w))
  /\ (forall op, binary_method op self other w =
        (Raise (ValueError ("unsupported mode: " +:+ Image.mode (im self))), w))
  /\ (forall op, compare_method op self other w =
        (Raise (ValueError ("unsupported mode: " +:+ Image.mode (im self))), w)).
Proof.
  intros Hm.
  assert (E : forall op b mode, apply self op (VOperand self) b mode w =
            (Raise (ValueError ("unsupported mode: " +:+ Image.mode (im self))), w))
    by (intros; apply apply_fixup1_raise; now apply fixup_operand_reject).
  conjuncts.
  - intros m [<-|[<-|[<-|[]]]]; apply E.
  - intros []; apply E.
  - intros []; apply E.
Qed.

(** X4.  [equal] and [notequal] return an image in mode I whatever the
    modes of their operands, also when the kernel that compares runs in mode
    F; the operators [==] and [!=] return an image in the mode of the
    kernel. *)
Theorem equal_returns_integer_mode (self : Operand) (other : value) (w : world) :
  (forall out w',
     imagemath_equal self other w = (Ok out, w')
     \/ imagemath_notequal self other w = (Ok out, w') ->
     Image.mode (im out) = "I")
  /\ (forall out w',
        __eq__ self other w = (Ok out, w') ->
        exists m ins,
          (m = "I" \/ m = "F") /\ Image.mode (im out) = m
          /\ calls w' = (calls w ++ [("eq_" +:+ m, Image.id (im out), ins)])%list)
  /\ (forall out w',
        imagemath_equal self other w = (Ok out, w') ->
        exists m ins,
          (m = "I" \/ m = "F")
          /\ calls w' = (calls w ++ [("eq_" +:+ m, Image.id (im out), ins)])%list).
Proof.
  conjuncts.
  - intros out w' [E|E]; apply apply_outcome in E;
      destruct E as (m & ins & _ & _ & M & _); exact M.
  - intros out w' E. apply apply_outcome in E.
    destruct E as (m & ins & Hm & _ & M & C & _). exists m, ins.
    conjuncts; [exact Hm | | exact C].
    rewrite M. destruct Hm as [->| ->]; reflexivity.
  - intros out w' E. apply apply_outcome in E.
    destruct E as (m & ins & Hm & _ & _ & C & _). exists m, ins. tauto.
Qed.

(** ** The pixels of a result *)

Lemma normal_mode_supported mode :
  In mode ["1"; "L"; "I"; "F"] ->
  normal_mode mode = if member mode ["1"; "L"] then "I" else mode.
Proof.
  intros Hm. simpl in Hm.
  destruct Hm as [<-|[<-|[<-|[<-|[]]]]]; reflexivity.
Qed.

(** [__fixup] on an operand of a supported mode that lives in the store. *)
Lemma fixup_operand_run self o w :
  In (Image.mode (im o)) ["1"; "L"; "I"; "F"] ->
  (Image.id (im o) < length (heap w))%nat ->
  exists i w1,
    __fixup self (VOperand o) w = (Ok i, w1)
    /\ Image.mode i = normal_mode (Image.mode (im o))
    /\ Image.size i = Image.size (im o)
    /\ heap w `prefix_of` heap w1
    /\ (Image.id i < length (heap w1))%nat
    /\ read w1 (Image.id i) = normal_pixels w (im o)
    /\ length (heap w1) = (length (heap w) + temporaries (im o))%nat.
Proof.
  intros Hm Hlive. rewrite (normal_mode_supported _ Hm).
  unfold normal_pixels, temporaries.
  destruct (member (Image.mode (im o)) ["1"; "L"]) eqn:E.
  - apply member_In in E. rewrite (fixup_operand_convert self o w E).
    rewrite Image_convert_run. eexists _, _. split; [reflexivity|].
    cbn [Image.mode Image.size Image.id heap].
    conjuncts; try reflexivity.
    + now apply prefix_app_r.
    + rewrite length_app. simpl. lia.
    + apply read_last.
    + rewrite length_app. reflexivity.
  - assert (HP : In (Image.mode (im o)) ["I"; "F"]).
    { apply member_not_In in E. simpl in *. tauto. }
    rewrite (fixup_operand_pass self o w HP). exists (im o), w.
    conjuncts; try reflexivity; [exact Hlive | lia].
Qed.

(** [__fixup] on a number. *)
Lemma fixup_number_run self c w :
  __fixup self (VNum c) w =
  (Ok (Image.mk (length (heap w)) (normal_mode (Image.mode (im self)))
                (Image.size (im self))),
   World (heap w ++ [core_new (normal_mode (Image.mode (im self)))
                              (Image.size (im self)) (Some c)]) (calls w)).
Proof.
  unfold normal_mode.
  destruct (member (Image.mode (im self)) ["1"; "L"; "I"]) eqn:E.
  - apply fixup_number_int. now apply member_In.
  - apply fixup_number_float. now apply member_not_In.
Qed.

(** A binary [apply] whose normalized operands agree in mode and size. *)
Lemma apply_binary_observed self op a b w i1 w1 i2 w2 :
  __fixup self a w = (Ok i1, w1) ->
  __fixup self b w1 = (Ok i2, w2) ->
  Image.mode i1 = Image.mode i2 ->
  Image.size i1 = Image.size i2 ->
  (Image.id i1 < length (heap w1))%nat ->
  (Image.id i2 < length (heap w2))%nat ->
  observe (lift_result (apply self op a (Some b) None w)) =
  binary_result op (Image.mode i1) (Image.size i1) (length (heap w2))
    (read w1 (Image.id i1)) (read w2 (Image.id i2)).
Proof.
  intros F1 F2 Hm Hs L1 L2.
  pose proof (fixup_quiet _ _ _ _ _ F2) as [P2 _].
  rewrite (apply_binary_same self op a b w i1 w1 i2 w2 F1 F2 Hm Hs).
  rewrite observe_dispatch2;
    [|pose proof (prefix_length _ _ P2); lia | exact L2].
  unfold binary_result. now rewrite (read_prefix w1 w2 _ P2 L1).
Qed.

Lemma normal_pixels_prefix w w1 i :
  heap w `prefix_of` heap w1 -> (Image.id i < length (heap w))%nat ->
  normal_pixels w1 i = normal_pixels w i.
Proof.
  intros P L. unfold normal_pixels. now rewrite (read_prefix w w1 _ P L).
Qed.

Lemma apply_two_operands_observed self op (a b : Operand) w :
  In (Image.mode (im a)) ["1"; "L"; "I"; "F"] ->
  In (Image.mode (im b)) ["1"; "L"; "I"; "F"] ->
  normal_mode (Image.mode (im a)) = normal_mode (Image.mode (im b)) ->
  Image.size (im a) = Image.size (im b) ->
  (Image.id (im a) < length (heap w))%nat ->
  (Image.id (im b) < length (heap w))%nat ->
  observe (lift_result (apply self op (VOperand a) (Some (VOperand b)) None w)) =
  binary_result op (normal_mode (Image.mode (im a))) (Image.size (im a))
    (length (heap w) + temporaries (im a) + temporaries (im b))
    (normal_pixels w (im a)) (normal_pixels w (im b)).
Proof.
  intros Ma Mb Hm Hs La Lb.
  destruct (fixup_operand_run self a w Ma La)
    as (i1 & w1 & F1 & M1 & S1 & P1 & L1 & R1 & N1).
  assert (Lb1 : (Image.id (im b) < length (heap w1))%nat)
    by (pose proof (prefix_length _ _ P1); lia).
  destruct (fixup_operand_run self b w1 Mb Lb1)
    as (i2 & w2 & F2 & M2 & S2 & P2 & L2 & R2 & N2).
  rewrite (apply_binary_observed self op _ _ w i1 w1 i2 w2 F1 F2);
    try congruence.
  rewrite M1, S1, R1, R2, N2, N1.
  now rewrite (normal_pixels_prefix w w1 _ P1 Lb).
Qed.

(** X5.  For two operands of supported modes that live in the store, agree
    in size and are normalized to the same mode, a binary [apply] shows the
    caller a new image of that mode and size whose pixels are what the
    kernel computes from the normalized pixels of the left and of the right
    operand, in this order; the only error is that of a missing kernel. *)
Theorem binary_operator_result self op (a b : Operand) w :
  In (Image.mode (im a)) ["1"; "L"; "I"; "F"] ->
  In (Image.mode (im b)) ["1"; "L"; "I"; "F"] ->
  normal_mode (Image.mode (im a)) = normal_mode (Image.mode (im b)) ->
  Image.size (im a) = Image.size (im b) ->
  (Image.id (im a) < length (heap w))%nat ->
  (Image.id (im b) < length (heap w))%nat ->
  observe (lift_result (apply self op (VOperand a) (Some (VOperand b)) None w)) =
  binary_result op (normal_mode (Image.mode (im a))) (Image.size (im a))
    (length (heap w) + temporaries (im a) + temporaries (im b))
    (normal_pixels w (im a)) (normal_pixels w (im b)).
Proof. apply apply_two_operands_observed. Qed.

Lemma binary_method_apply op self other w :
  binary_method op self other w =
  apply self (operation op) (VOperand self) (Some other) None w.
Proof. now destruct op. Qed.

Lemma reflected_method_apply op method self other w :
  reflected_method op = Some method ->
  method self other w =
  apply self (operation op) other (Some (VOperand self)) None w.
Proof. destruct op; intros [= <-]; reflexivity. Qed.

(** X6.  Between an operand of a supported mode that lives in the store and
    a number that the provider takes as a colour for the operand's
    normalized mode (an integer of 32 bits, or a float when that mode is F),
    in either order, no mode or size is reconciled: the number becomes an
    image of the operand's size in the operand's normalized mode, and the
    caller sees the kernel's result on the two buffers in the order in which
    the operands are written. *)
Theorem operand_with_number (self : Operand) (c : num) (op : binop) (w : world) :
  In (Image.mode (im self)) ["1"; "L"; "I"; "F"] ->
  (Image.id (im self) < length (heap w))%nat ->
  colour_for (normal_mode (Image.mode (im self))) c ->
  observe (lift_result (binary_method op self (VNum c) w)) =
    binary_result (operation op) (normal_mode (Image.mode (im self)))
      (Image.size (im self)) (length (heap w) + temporaries (im self) + 1)
      (normal_pixels w (im self))
      (core_new (normal_mode (Image.mode (im self))) (Image.size (im self))
                (Some c))
  /\ (forall method, reflected_method op = Some method ->
      observe (lift_result (method self (VNum c) w)) =
      binary_result (operation op) (normal_mode (Image.mode (im self)))
        (Image.size (im self)) (length (heap w) + 1 + temporaries (im self))
        (core_new (normal_mode (Image.mode (im self))) (Image.size (im self))
                  (Some c))
        (normal_pixels w (im self))).
Proof.
  intros Hm Hlive _. split.
  - rewrite binary_method_apply.
    destruct (fixup_operand_run self self w Hm Hlive)
      as (i1 & w1 & F1 & M1 & S1 & P1 & L1 & R1 & N1).
    pose proof (fixup_number_run self c w1) as F2.
    rewrite (apply_binary_observed self _ _ _ w _ _ _ _ F1 F2);
      cbn [Image.mode Image.size Image.id heap]; try congruence.
    + rewrite M1, S1, R1, read_last, length_app, N1. reflexivity.
    + rewrite length_app. simpl. lia.
  - intros method Hr. rewrite (reflected_method_apply _ _ _ _ _ Hr).
    pose proof (fixup_number_run self c w) as F1.
    match type of F1 with _ = (_, ?w1) =>
      assert (P1 : heap w `prefix_of` heap w1) by (now apply prefix_app_r);
      assert (Lw1 : (Image.id (im self) < length (heap w1))%nat)
        by (cbn [heap]; rewrite length_app; lia);
      destruct (fixup_operand_run self self w1 Hm Lw1)
        as (i2 & w2 & F2 & M2 & S2 & P2 & L2 & R2 & N2) end.
    rewrite (apply_binary_observed self _ _ _ w _ _ _ _ F1 F2);
      cbn [Image.mode Image.size Image.id heap]; try congruence.
    + rewrite read_last, R2, N2. cbn [heap]. rewrite length_app.
      now rewrite (normal_pixels_prefix w _ _ P1 Hlive).
    + rewrite length_app. simpl. lia.
Qed.

Lemma observe_dispatch1 op j1 w :
  (Image.id j1 < length (heap w))%nat ->
  observe (lift_result (dispatch1 op None j1 w)) =
  unary_result op (Image.mode j1) (Image.size j1) (length (heap w))
    (read w (Image.id j1)).
Proof.
  intros L1. unfold unary_result.
  destruct (imagingmath_has (op +:+ "_" +:+ Image.mode j1)) eqn:Hk.
  - rewrite (dispatch1_ok _ _ _ _ Hk). cbn [lift_result observe im Image.id].
    rewrite read_last, (read_old _ _ _ (calls w)) by assumption.
    now destruct w.
  - now rewrite (dispatch1_fail _ _ _ _ Hk).
Qed.

(** X7.  A unary [apply] on an operand of a supported mode that lives in
    the store shows the caller a new image of the operand's size, in mode I
    for an operand in mode 1, L or I and in mode F otherwise, whose pixels
    are what the kernel computes from the normalized pixels of the operand;
    the only error is that of a missing kernel. *)
Theorem unary_operator_result self op (o : Operand) w :
  In (Image.mode (im o)) ["1"; "L"; "I"; "F"] ->
  (Image.id (im o) < length (heap w))%nat ->
  observe (lift_result (apply self op (VOperand o) None None w)) =
  unary_result op (normal_mode (Image.mode (im o))) (Image.size (im o))
    (length (heap w) + temporaries (im o)) (normal_pixels w (im o)).
Proof.
  intros Hm Hlive.
  destruct (fixup_operand_run self o w Hm Hlive)
    as (i1 & w1 & F1 & M1 & S1 & P1 & L1 & R1 & N1).
  rewrite apply_unary_unfold, (bind_ok _ _ _ _ _ F1).
  rewrite (observe_dispatch1 _ _ _ L1). now rewrite M1, S1, R1, N1.
Qed.

(** ** The static checks of [eval] *)

Lemma expr_induction (P : expr -> Prop) :
  (forall n, P (ENum n)) ->
  (forall s, P (EStr s)) ->
  (forall x, P (EName x)) ->
  (forall e attr, P e -> P (EAttr e attr)) ->
  (forall op e, P e -> P (EUnary op e)) ->
  (forall op l r, P l -> P r -> P (EBinary op l r)) ->
  (forall op l r, P l -> P r -> P (ECompare op l r)) ->
  (forall f args, P f -> (forall a, In a args -> P a) -> P (ECall f args)) ->
  (forall params body, P body -> P (ELambda params body)) ->
  forall e, P e.
Proof.
  intros Hn Hs Hx Ha Hu Hb Hc Hf Hl. fix IH 1. intros [n|s|x|e a|op e|op l r|op l r|f args|ps body].
  - apply Hn.
  - apply Hs.
  - apply Hx.
  - apply Ha, IH.
  - apply Hu, IH.
  - apply Hb; apply IH.
  - apply Hc; apply IH.
  - apply Hf; [apply IH|].
    induction args as [|a0 args IHargs]; intros a Hin; [contradiction|].
    destruct Hin as [E|Hin]; [rewrite <- E; apply IH | now apply IHargs].
  - apply Hl, IH.
Qed.

Lemma code_refers_app ks1 ns1 ks2 ns2 x :
  code_refers (Code (ks1 ++ ks2) (ns1 ++ ns2)) x ->
  code_refers (Code ks1 ns1) x \/ code_refers (Code ks2 ns2) x.
Proof.
  intros Hr. inversion Hr as [ks ns y Hin | ks ns c y Hin Hc]; subst.
  - apply in_app_or in Hin as [Hin|Hin];
      [left | right]; now apply code_refers_here.
  - apply in_app_or in Hin as [Hin|Hin];
      [left | right]; now apply code_refers_nested with c.
Qed.

Lemma code_refers_concat (rs : list (list const * list string)) x :
  code_refers (Code (concat (List.map fst rs)) (concat (List.map snd rs))) x ->
  exists r, In r rs /\ code_refers (Code (fst r) (snd r)) x.
Proof.
  induction rs as [|r rs IH]; simpl; intros Hr.
  - inversion Hr; contradiction.
  - apply code_refers_app in Hr as [Hr|Hr].
    + exists r. split; [now left | exact Hr].
    + destruct (IH Hr) as (r' & Hin & Hr'). exists r'. split; [now right | exact Hr'].
Qed.

(** The compiled code refers to nothing but what the expression refers
    to. *)
Lemma compile_in_refers_inv e :
  forall bound x,
    code_refers (Code (fst (compile_in bound e)) (snd (compile_in bound e))) x ->
    refers bound e x.
Proof.
  induction e as [n|s|y|e attr IH|op e IH|op l r IHl IHr|op l r IHl IHr
                 |f args IHf IHargs|params body IH] using expr_induction;
    intros bound x Hr; cbn [compile_in] in Hr.
  - inversion Hr as [? ? ? Hin|? ? c ? Hin ?]; subst; simpl in Hin;
      [contradiction | destruct Hin as [E|[]]; discriminate].
  - inversion Hr as [? ? ? Hin|? ? c ? Hin ?]; subst; simpl in Hin;
      [contradiction | destruct Hin as [E|[]]; discriminate].
  - destruct (String.eqb y "__debug__").
    { inversion Hr as [? ? ? Hin|? ? c ? Hin ?]; subst; simpl in Hin;
        [contradiction | destruct Hin as [E|[]]; discriminate]. }
    inversion Hr as [? ? ? Hin|? ? c ? Hin ?]; subst; simpl in Hin;
      [|contradiction].
    destruct (member y bound) eqn:E; [contradiction|].
    destruct Hin as [<-|[]]. apply refers_name.
    apply member_not_In in E. now rewrite list_elem_of_In.
  - destruct (compile_in bound e) as [ks ns] eqn:E. simpl in Hr.
    specialize (IH bound x). rewrite E in IH. simpl in IH.
    inversion Hr as [? ? ? Hin|? ? c ? Hin Hc]; subst.
    + apply in_app_or in Hin as [Hin|[<-|[]]].
      * apply refers_attr_obj, IH. now apply code_refers_here.
      * apply refers_attr.
    + apply refers_attr_obj, IH. now apply code_refers_nested with c.
  - apply refers_unary. now apply IH.
  - destruct (compile_in bound l) as [ks1 ns1] eqn:E1,
      (compile_in bound r) as [ks2 ns2] eqn:E2. simpl in Hr.
    specialize (IHl bound x). specialize (IHr bound x).
    rewrite E1 in IHl. rewrite E2 in IHr.
    apply code_refers_app in Hr as [Hr|Hr];
      [apply refers_binary_l | apply refers_binary_r]; auto.
  - destruct (compile_in bound l) as [ks1 ns1] eqn:E1,
      (compile_in bound r) as [ks2 ns2] eqn:E2. simpl in Hr.
    specialize (IHl bound x). specialize (IHr bound x).
    rewrite E1 in IHl. rewrite E2 in IHr.
    apply code_refers_app in Hr as [Hr|Hr];
      [apply refers_compare_l | apply refers_compare_r]; auto.
  - destruct (compile_in bound f) as [ks ns] eqn:E. simpl in Hr.
    specialize (IHf bound x). rewrite E in IHf.
    apply code_refers_app in Hr as [Hr|Hr]; [now apply refers_call_f, IHf|].
    apply code_refers_concat in Hr as (r & Hin & Hr).
    apply in_map_iff in Hin as (a & <- & Hin).
    apply refers_call_arg with a; [exact Hin | now apply IHargs].
  - destruct (compile_in (params ++ bound) body) as [ks ns] eqn:E.
    simpl in Hr. specialize (IH (params ++ bound)%list x). rewrite E in IH.
    inversion Hr as [? ? ? Hin|? ? c ? Hin Hc]; subst; [contradiction|].
    destruct Hin as [[= <-]|[]]. now apply refers_lambda, IH.
Qed.

Lemma scan_names_ok args ns :
  (forall x, In x ns -> allowed args x) -> scan_names args ns = Ok tt.
Proof.
  induction ns as [|n ns IH]; intros Hall; [reflexivity|]. simpl.
  destruct (Hall n (or_introl eq_refl)) as [[v Hv]| ->].
  - rewrite bool_decide_eq_false_2 by congruence. simpl.
    apply IH. intros x Hx. apply Hall. now right.
  - rewrite andb_false_r. apply IH. intros x Hx. apply Hall. now right.
Qed.

Lemma scan_accepts args c :
  (forall x, code_refers c x -> allowed args x) -> scan args c = Ok tt.
Proof.
  induction c as [ks ns IH] using code_induction. intros Hall.
  rewrite scan_unfold.
  assert (Hks : scan_consts args ks = Ok tt).
  { assert (Hsub : forall c, In (KCode c) ks -> scan args c = Ok tt).
    { intros c Hin. apply IH; [exact Hin|]. intros x Hx. apply Hall.
      now apply code_refers_nested with c. }
    clear IH Hall. induction ks as [|k ks IHks]; [reflexivity|]. simpl.
    destruct k as [n|s|b|c]; try (apply IHks; intros c0 H0; apply Hsub; now right).
    rewrite (Hsub c (or_introl eq_refl)).
    apply IHks. intros c0 H0. apply Hsub. now right. }
  rewrite Hks. apply scan_names_ok. intros x Hx. apply Hall.
  now apply code_refers_here.
Qed.

(** X8.  [scan] accepts a code object exactly when every name of it, and
    of every code object nested in its constants at any depth, is a key of
    the namespace or is [abs]. *)
Theorem scan_accepts_iff (args : gmap string value) (c : code) :
  scan args c = Ok tt <-> forall x, code_refers c x -> allowed args x.
Proof.
  split; [|apply scan_accepts].
  intros Hs x Hx. unfold allowed.
  destruct (args !! x) as [v|] eqn:E; [left; eauto|].
  destruct (String.eqb_spec x "abs") as [->|Hne]; [now right|].
  destruct (scan_rejects args c x Hx E Hne) as [msg Hr]. congruence.
Qed.

(** X9.  When no key of the bindings is forbidden and every identifier
    that the expression refers to is a key of the namespace or [abs], [eval]
    does run the expression: its result is that of [builtins.eval] in the
    namespace, unwrapped. *)
Theorem allowed_expression_is_executed expression _dict kw w :
  check_keys (keys _dict kw) = Ok tt ->
  (forall x, refers [] expression x -> allowed (build_args _dict kw) x) ->
  eval expression _dict kw w =
  bind (builtins_eval expression eval_globals (build_args _dict kw)) unwrap w.
Proof.
  intros Hk Hall. unfold eval. fold (keys _dict kw).
  rewrite Hk, bind_lift_ok. cbv beta zeta.
  rewrite (scan_accepts (build_args _dict kw) (compile expression)).
  - reflexivity.
  - intros x Hx. apply Hall. apply compile_in_refers_inv.
    unfold compile in Hx. now destruct (compile_in [] expression).
Qed.

Lemma check_keys_first pre k post :
  Forall (fun k' => forbidden_key k' = false) pre ->
  forbidden_key k = true ->
  check_keys (pre ++ k :: post) = Raise (ValueError ("'" +:+ k +:+ "' not allowed")).
Proof.
  intros Hpre Hk. induction Hpre as [|k' pre Hk' _ IH]; simpl.
  - unfold forbidden_key in Hk. now rewrite Hk.
  - unfold forbidden_key in Hk'. now rewrite Hk'.
Qed.

(** X10.  [eval] visits the keys of [_dict], then those of [kw], in their
    order, and the [ValueError] it raises names the first forbidden one. *)
Theorem first_forbidden_key_is_reported expression _dict kw w pre k post :
  keys _dict kw = (pre ++ k :: post)%list ->
  Forall (fun k' => forbidden_key k' = false) pre ->
  forbidden_key k = true ->
  eval expression _dict kw w =
  (Raise (ValueError ("'" +:+ k +:+ "' not allowed")), w).
Proof.
  intros Hkeys Hpre Hk. apply eval_invalid_keys. rewrite Hkeys.
  now apply check_keys_first.
Qed.

Lemma keys_map _dict kw : keys _dict kw = List.map fst (_dict ++ kw)%list.
Proof. unfold keys. now rewrite List.map_app. Qed.

Lemma forbidden_key_unbound _dict kw k :
  check_keys (keys _dict kw) = Ok tt ->
  forbidden_key k = true ->
  bound_to (_dict ++ kw) k = None.
Proof.
  intros Hc Hk. destruct (bound_to (_dict ++ kw) k) as [p|] eqn:E; [|reflexivity].
  apply bound_to_in in E. rewrite <- keys_map in E.
  destruct (check_keys_ok _ _ Hc E) as [E1 E2].
  unfold forbidden_key in Hk. rewrite E1 in Hk. simpl in Hk.
  apply member_In in Hk. contradiction.
Qed.


Lemma bound_to_not_in d x : ~ In x (List.map fst d) -> bound_to d x = None.
Proof.
  intros Hn. destruct (bound_to d x) eqn:E; [|reflexivity].
  apply bound_to_in in E. contradiction.
Qed.

Lemma bound_to_nodup d x p :
  NoDup (List.map fst d) -> In (x, p) d -> bound_to d x = Some p.
Proof.
  induction d as [|[k v] d IH]; intros Hnd Hin; [contradiction|].
  simpl in *. inversion Hnd as [|? ? Hk Hnd']; subst.
  destruct Hin as [[= -> ->]|Hin].
  - rewrite bound_to_not_in by (now rewrite <- list_elem_of_In).
    now rewrite String.eqb_refl.
  - now rewrite (IH Hnd' Hin).
Qed.

(** X12.  A keyword binding takes precedence over an entry of [_dict] with
    the same name: with valid keys, evaluating a name bound in [kw] returns
    the value bound there, whatever [_dict] holds. *)
Theorem keyword_binding_wins x p _dict kw w :
  check_keys (keys _dict kw) = Ok tt ->
  NoDup (List.map fst kw) ->
  In (x, p) kw ->
  eval (EName x) _dict kw w = (Ok (inject p), w).
Proof.
  intros Hc Hnd Hin. apply eval_bound_name; [exact Hc|].
  now rewrite bound_to_app, (bound_to_nodup kw x p Hnd Hin).
Qed.

(** ** The equations of [exec] *)

Lemma exec_name_in depth fr env x :
  x <> "__debug__" ->
  exec depth fr (Some env) (EName x) = lift (load_in_function fr env x).
Proof. intros Hd. destruct depth; cbn; now rewrite (eqb_debug x Hd). Qed.




Lemma exec_attr depth fr scope e attr :
  exec depth fr scope (EAttr e attr) =
  bind (exec depth fr scope e) (fun v => getattr v attr).
Proof. now destruct depth. Qed.

Lemma exec_unary depth fr scope op e :
  exec depth fr scope (EUnary op e) =
  bind (exec depth fr scope e) (fun v => unary op v).
Proof. now destruct depth. Qed.


Lemma exec_compare depth fr scope op l r :
  exec depth fr scope (ECompare op l r) =
  bind (exec depth fr scope l) (fun a =>
    bind (exec depth fr scope r) (fun b => compare op a b)).
Proof. now destruct depth. Qed.

Lemma exec_call depth fr scope f args :
  exec depth fr scope (ECall f args) =
  bind (exec depth fr scope f) (fun fv =>
    bind (exec_args depth fr scope args) (fun vs =>
      call_value depth fr fv vs)).
Proof. now destruct depth. Qed.

Lemma exec_lambda depth fr scope params body :
  exec depth fr scope (ELambda params body) =
  ret (VLambda params body (default [] scope)).
Proof. now destruct depth. Qed.

(** ** The store only grows *)














(** *** Evaluation without attribute access *)



























(** X14.  A value that [eval] returns is never an operand: an operand that
    the expression evaluates to is replaced by its image. *)
Theorem eval_never_returns_operand expression _dict kw w v w' :
  eval expression _dict kw w = (Ok v, w') ->
  forall o, v <> VOperand o.
Proof.
  intros E o. unfold eval, bind, lift in E.
  destruct (check_keys _); [|discriminate].
  destruct (scan _ _); [|discriminate].
  destruct (builtins_eval _ _ _ w) as [[out|e] w1]; [|discriminate].
  destruct out; cbn in E; injection E as <- _; discriminate.
Qed.

(** ** Expressions over a bound image *)

Lemma operand_in_namespace x image _dict kw :
  bound_to (_dict ++ kw) x = Some (PImage image) ->
  build_args _dict kw !! x = Some (VOperand (_Operand image)).
Proof. intros Hb. now rewrite build_args_lookup, Hb. Qed.

Lemma scan_compare_name_num args op x c v :
  args !! x = Some v ->
  scan args (compile (ECompare op (EName x) (ENum c))) = Ok tt
  /\ scan args (compile (ECompare op (ENum c) (EName x))) = Ok tt.
Proof. exact (scan_name_num args Add x c v). Qed.

Lemma eval_compare_operand_number op x image c _dict kw w :
  check_keys (keys _dict kw) = Ok tt ->
  bound_to (_dict ++ kw) x = Some (PImage image) ->
  eval (ECompare op (EName x) (ENum c)) _dict kw w =
    lift_result (compare_method op (_Operand image) (VNum c) w)
  /\ eval (ECompare op (ENum c) (EName x)) _dict kw w =
    lift_result (compare_method (swapped op) (_Operand image) (VNum c) w).
Proof.
  intros Hk Hb. pose proof (operand_in_namespace _ _ _ _ Hb) as Hx.
  split.
  - rewrite eval_valid;
      [|exact Hk|now apply (scan_compare_name_num _ op x c _ Hx)].
    rewrite exec_compare, exec_name, exec_num by names.
    unfold load_name, eval_frame, f_locals. rewrite Hx.
    cbv [bind lift ret compare].
    now destruct (compare_method op (_Operand image) (VNum c) w) as [[o|e] w'].
  - rewrite eval_valid;
      [|exact Hk|now apply (scan_compare_name_num _ op x c _ Hx)].
    rewrite exec_compare, exec_name, exec_num by names.
    unfold load_name, eval_frame, f_locals. rewrite Hx.
    cbv [bind lift ret compare].
    now destruct (compare_method (swapped op) (_Operand image) (VNum c) w)
      as [[o|e] w'].
Qed.

(** X15.  A comparison with the number on the left is answered by the
    mirrored comparison of the operand: for an image [x] and a number [c],
    [c < x] evaluates as [x > c], [c <= x] as [x >= c], [c == x] as
    [x == c], and so on. *)
Theorem comparison_with_number_on_the_left op x image c _dict kw w :
  check_keys (keys _dict kw) = Ok tt ->
  bound_to (_dict ++ kw) x = Some (PImage image) ->
  eval (ECompare op (ENum c) (EName x)) _dict kw w =
  eval (ECompare (swapped op) (EName x) (ENum c)) _dict kw w.
Proof.
  intros Hk Hb.
  rewrite (proj2 (eval_compare_operand_number op x image c _ _ w Hk Hb)).
  now rewrite (proj1 (eval_compare_operand_number (swapped op) x image c _ _ w Hk Hb)).
Qed.

(** X16.  Unary plus on a bound image returns that image, in whatever mode
    it is, and changes nothing. *)
Theorem unary_plus_is_identity x image _dict kw w :
  check_keys (keys _dict kw) = Ok tt ->
  bound_to (_dict ++ kw) x = Some (PImage image) ->
  eval (EUnary UAdd (EName x)) _dict kw w = (Ok (VImage image), w).
Proof.
  intros Hk Hb. pose proof (operand_in_namespace _ _ _ _ Hb) as Hx.
  rewrite eval_valid; [|exact Hk|exact (scan_name _ x _ Hx)].
  rewrite exec_unary, exec_name by names.
  unfold load_name, eval_frame, f_locals. now rewrite Hx.
Qed.

Lemma assoc_builtins_none x :
  ~ In x builtin_names -> assoc builtins_dict x = None.
Proof.
  unfold builtins_dict. induction builtin_names as [|k ks IH]; intros Hn;
    [reflexivity|].
  simpl. destruct (String.eqb_spec k x) as [->|Hne].
  - exfalso. apply Hn. now left.
  - apply IH. intros Hin. apply Hn. now right.
Qed.

Lemma clean_key_not_global x :
  contains "__" x = false ->
  (<["__builtins__" := VDict builtins_dict]> eval_globals : gmap string value)
    !! x = None.
Proof.
  intros Hc.
  assert (x <> "__builtins__") by (intros ->; discriminate).
  assert (x <> "__builtins") by (intros ->; discriminate).
  unfold eval_globals.
  rewrite lookup_insert_ne by congruence.
  now rewrite lookup_singleton_ne by congruence.
Qed.

(** X17.  The bindings are the locals of the evaluation, which the body of
    a lambda does not consult: with valid keys, [(lambda: x)()] for a bound
    name [x] passes the scan and then raises [NameError]. *)
Theorem bindings_are_invisible_inside_lambda x p _dict kw w :
  check_keys (keys _dict kw) = Ok tt ->
  bound_to (_dict ++ kw) x = Some p ->
  scan (build_args _dict kw) (compile (ECall (ELambda [] (EName x)) [])) = Ok tt
  /\ eval (ECall (ELambda [] (EName x)) []) _dict kw w = (Raise (NameError x), w).
Proof.
  intros Hk Hb.
  assert (Hx : build_args _dict kw !! x = Some (wrap (inject p)))
    by now rewrite build_args_lookup, Hb.
  assert (Hs : scan (build_args _dict kw)
                 (compile (ECall (ELambda [] (EName x)) [])) = Ok tt).
  { scan_names_goal. }
  split; [exact Hs|].
  pose proof (bound_to_in _ _ _ Hb) as Hin. rewrite <- keys_map in Hin.
  destruct (check_keys_ok _ _ Hk Hin) as [Hc Hnb].
  rewrite eval_valid; [|exact Hk|exact Hs].
  unfold recursion_limit.
  rewrite exec_call, exec_lambda. cbn [exec_args default].
  cbv [bind ret call_value]. cbn [length].
  rewrite bool_decide_eq_true_2 by reflexivity.
  rewrite exec_name_in by names. cbn [zip app lift load_in_function assoc].
  unfold load_global, f_builtins, eval_frame, f_globals.
  rewrite (clean_key_not_global x Hc), lookup_insert_eq.
  now rewrite (assoc_builtins_none x Hnb).
Qed.

Lemma scan_call_name args f x v v' :
  args !! f = Some v -> args !! x = Some v' ->
  scan args (compile (ECall (EName f) [EName x])) = Ok tt.
Proof.
  intros Hf Hx. scan_names_goal.
Qed.

(** X18.  In an evaluation that passes the validation, [int(x)] and
    [float(x)] on a bound image [x] in one of the modes 1, L, I, F and RGB
    convert it with the provider: the result is a new image of mode I,
    respectively F, and of the same size, also when [x] is in that mode
    already, and no kernel is invoked.  (Mode RGB is one that the operators
    reject.) *)
Theorem conversion_helpers_invoke_no_kernel x image _dict kw w :
  check_keys (keys _dict kw) = Ok tt ->
  bound_to (_dict ++ kw) x = Some (PImage image) ->
  In (Image.mode image) ["1"; "L"; "I"; "F"; "RGB"] ->
  eval (ECall (EName "int") [EName x]) _dict kw w =
    (Ok (VImage (Image.mk (length (heap w)) "I" (Image.size image))),
     World (heap w ++ [core_convert "I" image (read w (Image.id image))])
           (calls w))
  /\ eval (ECall (EName "float") [EName x]) _dict kw w =
    (Ok (VImage (Image.mk (length (heap w)) "F" (Image.size image))),
     World (heap w ++ [core_convert "F" image (read w (Image.id image))])
           (calls w)).
Proof.
  intros Hk Hb _. pose proof (operand_in_namespace _ _ _ _ Hb) as Hx.
  assert (Hint : build_args _dict kw !! "int" = Some (VFunction Fn_int)).
  { rewrite build_args_lookup.
    now rewrite (forbidden_key_unbound _ _ "int" Hk) by (now vm_compute). }
  assert (Hfloat : build_args _dict kw !! "float" = Some (VFunction Fn_float)).
  { rewrite build_args_lookup.
    now rewrite (forbidden_key_unbound _ _ "float" Hk) by (now vm_compute). }
  split.
  - rewrite eval_valid; [|exact Hk|exact (scan_call_name _ _ _ _ _ Hint Hx)].
    rewrite exec_call, !exec_name by names. cbn [exec_args]. rewrite exec_name by names.
    unfold load_name, eval_frame, f_locals. rewrite Hint, Hx. reflexivity.
  - rewrite eval_valid; [|exact Hk|exact (scan_call_name _ _ _ _ _ Hfloat Hx)].
    rewrite exec_call, !exec_name by names. cbn [exec_args]. rewrite exec_name by names.
    unfold load_name, eval_frame, f_locals. rewrite Hfloat, Hx. reflexivity.
Qed.

Lemma scan_call_abs args x v :
  args !! x = Some v ->
  scan args (compile (ECall (EName "abs") [EName x])) = Ok tt.
Proof.
  intros Hx. scan_names_goal.
Qed.

(** X19.  [abs] is no key of the namespace, yet the scan lets it through
    and the evaluation finds the built-in: with valid keys, [abs(x)] on a
    bound image [x] is [x.__abs__()]. *)
Theorem abs_calls_the_operand_method x image _dict kw w :
  check_keys (keys _dict kw) = Ok tt ->
  bound_to (_dict ++ kw) x = Some (PImage image) ->
  build_args _dict kw !! "abs" = None
  /\ eval (ECall (EName "abs") [EName x]) _dict kw w =
     lift_result (__abs__ (_Operand image) w).
Proof.
  intros Hk Hb. pose proof (operand_in_namespace _ _ _ _ Hb) as Hx.
  assert (Habs : build_args _dict kw !! "abs" = None).
  { rewrite build_args_lookup.
    now rewrite (forbidden_key_unbound _ _ "abs" Hk) by (now vm_compute). }
  split; [exact Habs|].
  rewrite eval_valid; [|exact Hk|exact (scan_call_abs _ _ _ Hx)].
  rewrite exec_call, !exec_name by names. cbn [exec_args]. rewrite exec_name by names.
  unfold load_name, eval_frame, f_locals. rewrite Habs, Hx.
  change (load_global
            {| f_globals := <["__builtins__" := VDict builtins_dict]> eval_globals;
               f_locals := build_args _dict kw |} "abs")
    with (@Ok value (VBuiltin "abs")).
  cbv [bind lift ret call_value call_builtin]. cbn [String.eqb Ascii.eqb Bool.eqb].
  now destruct (__abs__ (_Operand image) w) as [[o|e] w'].
Qed.

Lemma scan_call_two_names args f x y v vx vy :
  args !! f = Some v -> args !! x = Some vx -> args !! y = Some vy ->
  scan args (compile (ECall (EName f) [EName x; EName y])) = Ok tt.
Proof.
  intros Hf Hx Hy. scan_names_goal.
Qed.

Lemma eval_min_max a b ia ib _dict kw w :
  check_keys (keys _dict kw) = Ok tt ->
  bound_to (_dict ++ kw) a = Some (PImage ia) ->
  bound_to (_dict ++ kw) b = Some (PImage ib) ->
  eval (ECall (EName "min") [EName a; EName b]) _dict kw w =
    lift_result (apply (_Operand ia) "min" (VOperand (_Operand ia))
                   (Some (VOperand (_Operand ib))) None w)
  /\ eval (ECall (EName "max") [EName a; EName b]) _dict kw w =
    lift_result (apply (_Operand ia) "max" (VOperand (_Operand ia))
                   (Some (VOperand (_Operand ib))) None w).
Proof.
  intros Hk Ha Hb.
  pose proof (operand_in_namespace _ _ _ _ Ha) as Hxa.
  pose proof (operand_in_namespace _ _ _ _ Hb) as Hxb.
  assert (Hmin : build_args _dict kw !! "min" = Some (VFunction Fn_min)).
  { rewrite build_args_lookup.
    now rewrite (forbidden_key_unbound _ _ "min" Hk) by (now vm_compute). }
  assert (Hmax : build_args _dict kw !! "max" = Some (VFunction Fn_max)).
  { rewrite build_args_lookup.
    now rewrite (forbidden_key_unbound _ _ "max" Hk) by (now vm_compute). }
  split.
  - rewrite eval_valid;
      [|exact Hk|exact (scan_call_two_names _ _ _ _ _ _ _ Hmin Hxa Hxb)].
    rewrite exec_call, !exec_name by names. cbn [exec_args]. rewrite !exec_name by names.
    unfold load_name, eval_frame, f_locals. rewrite Hmin, Hxa, Hxb.
    cbv [bind lift ret call_value call_function receiver imagemath_min].
    now destruct (apply _ _ _ _ _ w) as [[o|e] w'].
  - rewrite eval_valid;
      [|exact Hk|exact (scan_call_two_names _ _ _ _ _ _ _ Hmax Hxa Hxb)].
    rewrite exec_call, !exec_name by names. cbn [exec_args]. rewrite !exec_name by names.
    unfold load_name, eval_frame, f_locals. rewrite Hmax, Hxa, Hxb.
    cbv [bind lift ret call_value call_function receiver imagemath_max].
    now destruct (apply _ _ _ _ _ w) as [[o|e] w'].
Qed.

(** X20.  In an evaluation that passes the validation, [min(a, b)] and
    [max(a, b)] on two bound images are the binary [apply] of the operations
    [min] and [max] on the two operands, in this order; for two images of
    the store that agree in size and in normalized mode, the caller sees a
    new image whose pixels are what the [min], respectively [max], kernel
    computes from the normalized pixels of [a] and of [b]. *)
Theorem min_max_route_through_apply a b ia ib _dict kw w :
  check_keys (keys _dict kw) = Ok tt ->
  bound_to (_dict ++ kw) a = Some (PImage ia) ->
  bound_to (_dict ++ kw) b = Some (PImage ib) ->
  (eval (ECall (EName "min") [EName a; EName b]) _dict kw w =
     lift_result (apply (_Operand ia) "min" (VOperand (_Operand ia))
                    (Some (VOperand (_Operand ib))) None w)
   /\ eval (ECall (EName "max") [EName a; EName b]) _dict kw w =
     lift_result (apply (_Operand ia) "max" (VOperand (_Operand ia))
                    (Some (VOperand (_Operand ib))) None w))
  /\ (In (Image.mode ia) ["1"; "L"; "I"; "F"] ->
      In (Image.mode ib) ["1"; "L"; "I"; "F"] ->
      normal_mode (Image.mode ia) = normal_mode (Image.mode ib) ->
      Image.size ia = Image.size ib ->
      (Image.id ia < length (heap w))%nat ->
      (Image.id ib < length (heap w))%nat ->
      forall op, op = "min" \/ op = "max" ->
      observe (eval (ECall (EName op) [EName a; EName b]) _dict kw w) =
      binary_result op (normal_mode (Image.mode ia)) (Image.size ia)
        (length (heap w) + temporaries ia + temporaries ib)
        (normal_pixels w ia) (normal_pixels w ib)).
Proof.
  intros Hk Ha Hb. destruct (eval_min_max a b ia ib _ _ w Hk Ha Hb) as [Emin Emax].
  split; [now split|].
  intros Ma Mb Hm Hs La Lb op [->| ->].
  - rewrite Emin.
    exact (apply_two_operands_observed (_Operand ia) "min" (_Operand ia)
             (_Operand ib) w Ma Mb Hm Hs La Lb).
  - rewrite Emax.
    exact (apply_two_operands_observed (_Operand ia) "max" (_Operand ia)
             (_Operand ib) w Ma Mb Hm Hs La Lb).
Qed.

Lemma scan_two_names args op x y vx vy :
  args !! x = Some vx -> args !! y = Some vy ->
  scan args (compile (EBinary op (EName x) (EName y))) = Ok tt.
Proof.
  intros Hx Hy. scan_names_goal.
Qed.

Lemma eval_two_operands op a b ia ib _dict kw w :
  check_keys (keys _dict kw) = Ok tt ->
  bound_to (_dict ++ kw) a = Some (PImage ia) ->
  bound_to (_dict ++ kw) b = Some (PImage ib) ->
  eval (EBinary op (EName a) (EName b)) _dict kw w =
  lift_result (apply (_Operand ia) (operation op) (VOperand (_Operand ia))
                 (Some (VOperand (_Operand ib))) None w).
Proof.
  intros Hk Ha Hb.
  pose proof (operand_in_namespace _ _ _ _ Ha) as Hxa.
  pose proof (operand_in_namespace _ _ _ _ Hb) as Hxb.
  rewrite eval_valid; [|exact Hk|exact (scan_two_names _ op _ _ _ _ Hxa Hxb)].
  rewrite exec_binary, !exec_name by names.
  unfold load_name, eval_frame, f_locals. rewrite Hxa, Hxb.
  cbv [bind lift ret binary]. rewrite binary_method_apply.
  now destruct (apply _ _ _ _ _ w) as [[o|e] w'].
Qed.

Lemma fixup_operand_ok self o w :
  In (Image.mode (im o)) ["1"; "L"; "I"; "F"] ->
  exists i w1,
    __fixup self (VOperand o) w = (Ok i, w1)
    /\ Image.mode i = normal_mode (Image.mode (im o))
    /\ Image.size i = Image.size (im o).
Proof.
  intros Hm. rewrite (normal_mode_supported _ Hm).
  destruct (member (Image.mode (im o)) ["1"; "L"]) eqn:E.
  - apply member_In in E. rewrite (fixup_operand_convert self o w E).
    rewrite Image_convert_run. eexists _, _. now conjuncts.
  - assert (HP : In (Image.mode (im o)) ["I"; "F"]).
    { apply member_not_In in E. simpl in *. tauto. }
    rewrite (fixup_operand_pass self o w HP). exists (im o), w. now conjuncts.
Qed.

(** X21.  For two bound images of supported modes, a binary operator in the
    expression returns, when the kernel exists, an image whose mode is the
    common normalized mode of the two, or F when they differ, and whose size
    is the element-wise minimum of the two sizes; when the kernel is missing
    it raises [TypeError]. *)
Theorem eval_binary_mode_and_size op a b ia ib _dict kw w :
  check_keys (keys _dict kw) = Ok tt ->
  bound_to (_dict ++ kw) a = Some (PImage ia) ->
  bound_to (_dict ++ kw) b = Some (PImage ib) ->
  In (Image.mode ia) ["1"; "L"; "I"; "F"] ->
  In (Image.mode ib) ["1"; "L"; "I"; "F"] ->
  let mode :=
    if decide (normal_mode (Image.mode ia) = normal_mode (Image.mode ib))
    then normal_mode (Image.mode ia) else "F" in
  if imagingmath_has (operation op +:+ "_" +:+ mode)
  then exists out w',
         eval (EBinary op (EName a) (EName b)) _dict kw w = (Ok (VImage out), w')
         /\ Image.mode out = mode
         /\ Image.size out = common_size (Image.size ia) (Image.size ib)
  else exists w',
         eval (EBinary op (EName a) (EName b)) _dict kw w =
         (Raise (TypeError ("bad operand type for '" +:+ operation op +:+ "'")), w').
Proof.
  intros Hk Ha Hb Ma Mb mode.
  rewrite (eval_two_operands op a b ia ib _ _ w Hk Ha Hb).
  destruct (fixup_operand_ok (_Operand ia) (_Operand ia) w Ma)
    as (i1 & w1 & F1 & M1 & S1).
  destruct (fixup_operand_ok (_Operand ia) (_Operand ib) w1 Mb)
    as (i2 & w2 & F2 & M2 & S2).
  destruct (apply_binary_spec (_Operand ia) (operation op) _ _ None w
              i1 w1 i2 w2 F1 F2)
    as (k1 & k2 & j1 & j2 & w3 & R & _ & E).
  destruct R as (_ & _ & _ & _ & N1 & _ & T1 & _).
  assert (Hmode : Image.mode j1 = mode).
  { rewrite N1. unfold common_mode, mode. cbn [im] in M1, M2.
    rewrite M1, M2.
    now destruct (decide (normal_mode (Image.mode ia) = normal_mode (Image.mode ib))). }
  assert (Hsize : Image.size j1 = common_size (Image.size ia) (Image.size ib)).
  { rewrite T1. unfold settled_size. cbn [im] in S1, S2. rewrite S1, S2.
    destruct (decide (Image.size ia = Image.size ib)) as [Eq|Ne]; [|reflexivity].
    unfold common_size. rewrite <- Eq.
    destruct (Image.size ia) as [x y]. cbn. now rewrite !Z.min_id. }
  rewrite E.
  destruct (imagingmath_has (operation op +:+ "_" +:+ mode)) eqn:Hh.
  - rewrite dispatch2_ok by (now rewrite Hmode). eexists _, _.
    split; [reflexivity|]. cbn [im Image.mode Image.size or_else]. tauto.
  - rewrite dispatch2_fail by (now rewrite Hmode). eexists. reflexivity.
Qed.

End More.

(** * The properties on the sample provider *)

Import Flat.

Lemma scan_precedes_execution_witness :
  exists msg,
    eval nested_attribute [("x", PImage imL)] [] w0 = (Raise (ValueError msg), w0)
    /\ calls (snd (eval nested_attribute [("x", PImage imL)] [] w0)) = calls w0.
Proof.
  apply (scan_precedes_execution nested_attribute _ _ w0 "real").
  - reflexivity.
  - apply refers_binary_r, refers_call_f, refers_lambda, refers_attr.
  - vm_compute. reflexivity.
  - discriminate.
  - discriminate.
Defined.

(** The claim C2 as it is worded fails on the identifier [__debug__]: the
    expression [__debug__] refers to it, it is no key of the namespace and
    it is not [abs], yet the compiled code has no name, the scan passes and
    [eval] returns the constant. *)
Lemma debug_name_passes_the_scan :
  compiles (EName "__debug__") = true
  /\ refers [] (EName "__debug__") "__debug__"
  /\ build_args [] [] !! "__debug__" = None
  /\ "__debug__" <> "abs"
  /\ compile (EName "__debug__") = Code [KBool true] []
  /\ eval (EName "__debug__") [] [] w0 = (Ok (VBool true), w0)
  /\ ~ (exists msg,
          eval (EName "__debug__") [] [] w0 = (Raise (ValueError msg), w0)).
Proof.
  split; [reflexivity|].
  split; [apply refers_name, not_elem_of_nil|].
  split; [vm_compute; reflexivity|].
  split; [discriminate|].
  split; [reflexivity|].
  split; [vm_compute; reflexivity|].
  intros [msg E]. vm_compute in E. discriminate E.
Qed.

Lemma invalid_binding_key_rejected_witness :
  (exists msg,
     eval (EName "x") [("x", PImage imL); ("a__b", PNum (NInt 1))] [] w0 =
     (Raise (ValueError msg), w0))
  /\ (exists msg,
        eval (EName "x") [("x", PImage imL)] [("len", PNum (NInt 1))] w0 =
        (Raise (ValueError msg), w0)).
Proof.
  split.
  - apply (invalid_binding_key_rejected _ _ _ w0 "a__b").
    + simpl. tauto.
    + left. exists "a", "b". reflexivity.
  - apply (invalid_binding_key_rejected _ _ _ w0 "len").
    + simpl. tauto.
    + right. apply list_elem_of_In, (bool_decide_eq_true _). vm_compute.
      reflexivity.
Defined.

Lemma fixup_cases_witness :
  __fixup (_Operand imI) (VOperand (_Operand imL)) w0 =
    (Ok (Image.mk 3 "I" (4, 3)), World [7; 9; -5; 7] [])
  /\ __fixup (_Operand imI) (VOperand (_Operand imF)) w0 = (Ok imF, w0)
  /\ __fixup (_Operand imI) (VOperand (_Operand imRGB)) w0 =
       (Raise (ValueError "unsupported mode: RGB"), w0)
  /\ __fixup (_Operand imL) (VNum (NInt 2)) w0 =
       (Ok (Image.mk 3 "I" (4, 3)), World [7; 9; -5; 2] [])
  /\ __fixup (_Operand imF) (VNum (NInt 2)) w0 =
       (Ok (Image.mk 3 "F" (2, 5)), World [7; 9; -5; 2] []).
Proof.
  destruct (fixup_cases (_Operand imI) w0) as (H1 & H2 & H3 & _ & _).
  destruct (fixup_cases (_Operand imL) w0) as (_ & _ & _ & H4 & _).
  destruct (fixup_cases (_Operand imF) w0) as (_ & _ & _ & _ & H5).
  split; [|split; [|split; [|split]]].
  - apply (H1 (_Operand imL)). simpl. tauto.
  - apply (H2 (_Operand imF)). simpl. tauto.
  - apply (H3 (_Operand imRGB)). simpl. intros [E|[E|[E|[E|[]]]]]; discriminate.
  - apply (H4 (NInt 2)). simpl. tauto.
  - apply (H5 (NInt 2)). simpl. intros [E|[E|[E|[]]]]; discriminate.
Defined.


Lemma apply_crops_to_common_size_witness :
  (exists out w',
     apply (_Operand imI) "add" (VOperand (_Operand imI))
           (Some (VOperand (_Operand imF))) None w0 = (Ok out, w')
     /\ Image.size (im out) = (2, 3))
  /\ observe (lift_result
                (apply (_Operand imI) "add" (VOperand (_Operand imI))
                   (Some (VOperand (_Operand (Image.mk 0 "I" (2, 5)))))
                   None w0)) =
     Ok (VImage (Image.mk 5 "I" (2, 3)), Some 2).
Proof.
  split.
  - destruct (apply_crops_to_common_size (_Operand imI) "add"
                (VOperand (_Operand imI)) (VOperand (_Operand imF)) None
                w0 imI w0 imF w0 eq_refl eq_refl ltac:(discriminate))
      as ((k1 & k2 & w3 & j1 & wa & j2 & w4 & _ & _ & _ & _ & _ & _ & _ & _
           & Hok & _) & _).
    destruct (Hok eq_refl) as (out & w' & E & Hout & _).
    exists out, w'. rewrite Hout. now split.
  - destruct (apply_crops_to_common_size (_Operand imI) "add"
                (VOperand (_Operand imI))
                (VOperand (_Operand (Image.mk 0 "I" (2, 5)))) None
                w0 imI w0 (Image.mk 0 "I" (2, 5)) w0 eq_refl eq_refl
                ltac:(discriminate))
      as (_ & Hobs).
    rewrite (Hobs eq_refl eq_refl ltac:(simpl; lia) ltac:(simpl; lia)).
    reflexivity.
Defined.

Lemma eval_name_returns_image_witness :
  eval (EName "x") [("x", PImage imL); ("y", PNum (NInt 2))] [] w0 =
  (Ok (VImage imL), w0).
Proof.
  apply (eval_name_returns_image "x" imL _ _ w0).
  - vm_compute. reflexivity.
  - reflexivity.
Defined.

Lemma reflected_operators_witness :
  observe (eval (EBinary Add (EName "x") (ENum (NInt 3))) [("x", PImage imL)] [] w0) =
  observe (eval (EBinary Add (ENum (NInt 3)) (EName "x")) [("x", PImage imL)] [] w0)
  /\ eval (EBinary Sub (ENum (NInt 3)) (EName "x")) [("x", PImage imL)] [] w0 =
     lift_result (apply (_Operand imL) "sub" (VNum (NInt 3))
                    (Some (VOperand (_Operand imL))) None w0).
Proof.
  destruct (reflected_operators (_Operand imL) (VNum (NInt 3)) w0)
    as (_ & _ & Horder & Hadd).
  split.
  - apply (Hadd "x" imL).
    + vm_compute. reflexivity.
    + reflexivity.
    + simpl. lia.
    + intros a b. apply Z.add_comm.
    + intros a b. apply Z.add_comm.
  - apply (Horder Sub "x" imL).
    + vm_compute. reflexivity.
    + reflexivity.
Defined.

(** C8, against the claim: [1 << x] and [1 >> x] on an image [x] raise
    [TypeError] and run no kernel, since [_Operand] has no reflected shift,
    while [x << 1] is computed. *)
Lemma shift_has_no_reflected_form :
  eval (EBinary LShift (ENum (NInt 1)) (EName "x")) [("x", PImage imI)] [] w0 =
    (Raise (TypeError "unsupported operand type(s) for <<"), w0)
  /\ eval (EBinary RShift (ENum (NInt 1)) (EName "x")) [("x", PImage imI)] [] w0 =
       (Raise (TypeError "unsupported operand type(s) for >>"), w0)
  /\ eval (EBinary LShift (EName "x") (ENum (NInt 1))) [("x", PImage imI)] [] w0 =
       (Ok (VImage (Image.mk 4 "I" (4, 3))),
        World [7; 9; -5; 1; -10] [("lshift_I", 4%nat, [2%nat; 3%nat])]).
Proof. repeat split; vm_compute; reflexivity. Qed.

Lemma operators_return_fresh_results_witness :
  __pos__ (_Operand imI) w0 = (Ok (_Operand imI), w0)
  /\ returns_fresh (__neg__ (_Operand imI)) w0
  /\ returns_fresh (__radd__ (_Operand imI) (VNum (NInt 1))) w0.
Proof.
  destruct (operators_return_fresh_results (_Operand imI) (VNum (NInt 1)) w0)
    as (Hpos & _ & Hun & _ & Hre & _).
  split; [exact Hpos|]. split.
  - apply (Hun USub). discriminate.
  - apply (Hre Add). reflexivity.
Defined.

(** C9, against the claim: unary plus on an operand returns that operand,
    whose image already was in the store; nothing is allocated. *)
Lemma pos_returns_its_operand :
  ~ returns_fresh (unary_method UAdd (_Operand imI)) w0
  /\ eval (EUnary UAdd (EName "x")) [("x", PImage imI)] [] w0 =
     (Ok (VImage imI), w0).
Proof.
  split.
  - intros Hf. destruct (Hf (Ok (_Operand imI)) w0 eq_refl) as [_ Hout].
    specialize (Hout _ eq_refl). simpl in Hout. lia.
  - vm_compute. reflexivity.
Qed.

Lemma vocabulary_names_witness :
  (exists msg,
     eval (EName "x") [("x", PImage imL); ("max", PImage imI)] [] w0 =
     (Raise (ValueError msg), w0))
  /\ eval (EName "equal") [("equal", PImage imL)] [] w0 = (Ok (VImage imL), w0).
Proof.
  split.
  - destruct (vocabulary_names_as_binding_keys "max") as [Hrej _].
    destruct Hrej as [_ Hr]; [simpl; tauto|]. apply Hr. simpl. tauto.
  - destruct (vocabulary_names_as_binding_keys "equal") as [_ Hacc].
    destruct Hacc as (_ & _ & Hb); [simpl; tauto|].
    destruct (Hb [("equal", PImage imL)] [] (PImage imL)) as (_ & _ & He).
    + vm_compute. reflexivity.
    + reflexivity.
    + apply He.
Defined.

(** ** The further properties on the sample provider *)

Lemma operators_invoke_one_kernel_witness :
  one_kernel_call (__neg__ (_Operand imI))
  /\ one_kernel_call (__rsub__ (_Operand imI) (VNum (NInt 1)))
  /\ one_kernel_call (imagemath_min (_Operand imI) (VNum (NInt 1))).
Proof.
  destruct (operators_invoke_one_kernel (_Operand imI) (VNum (NInt 1)))
    as (_ & Hun & _ & Hre & _ & _ & _ & Hmin & _).
  split; [|split].
  - apply (Hun USub). discriminate.
  - apply (Hre Sub). reflexivity.
  - exact Hmin.
Defined.

Lemma operator_errors_witness :
  operator_error "invert" (TypeError "bad operand type for 'invert'")
  /\ operator_error "add" (ValueError "unsupported mode: RGB").
Proof.
  split.
  - destruct (operator_errors (_Operand imF) (_Operand imF) w0)
      as (_ & _ & Hinv & _).
    eapply Hinv. vm_compute. reflexivity.
  - destruct (operator_errors (_Operand imI) (_Operand imRGB) w0)
      as (_ & _ & _ & Hbin & _).
    eapply (Hbin Add). vm_compute. reflexivity.
Defined.

Lemma unsupported_mode_rejected_witness :
  __neg__ (_Operand imRGB) w0 = (Raise (ValueError "unsupported mode: RGB"), w0)
  /\ __lshift__ (_Operand imRGB) (VNum (NInt 1)) w0 =
     (Raise (ValueError "unsupported mode: RGB"), w0)
  /\ __le__ (_Operand imRGB) (VNum (NInt 1)) w0 =
     (Raise (ValueError "unsupported mode: RGB"), w0).
Proof.
  destruct (unsupported_mode_rejected (_Operand imRGB) (VNum (NInt 1)) w0)
    as (Hun & Hbin & Hcmp).
  - simpl. intros [E|[E|[E|[E|[]]]]]; discriminate.
  - split; [|split].
    + apply (Hun __neg__). simpl. tauto.
    + apply (Hbin LShift).
    + apply (Hcmp LtE).
Defined.

Lemma equal_returns_integer_mode_witness :
  Image.mode (Image.mk 3 "I" (2, 5)) = "I"
  /\ exists m ins,
       (m = "I" \/ m = "F") /\ Image.mode (Image.mk 3 "F" (2, 5)) = m
       /\ [("eq_F", 3%nat, [1%nat; 1%nat])] =
          ([] ++ [("eq_" +:+ m, 3%nat, ins)])%list.
Proof.
  destruct (equal_returns_integer_mode (_Operand imF) (VOperand (_Operand imF)) w0)
    as (Heq & Hop & _).
  split.
  - eapply (Heq (_Operand (Image.mk 3 "I" (2, 5)))).
    left. vm_compute. reflexivity.
  - eapply (Hop (_Operand (Image.mk 3 "F" (2, 5)))
                (@World provider [7; 9; -5; 1]
                   [("eq_F", 3%nat, [1%nat; 1%nat])])).
    vm_compute. reflexivity.
Defined.

Lemma binary_operator_result_witness :
  observe (lift_result (apply (_Operand imL) "sub" (VOperand (_Operand imL))
                          (Some (VOperand (_Operand imI))) None w0)) =
  Ok (VImage (Image.mk 4 "I" (4, 3)), Some 12).
Proof.
  rewrite (binary_operator_result (_Operand imL) "sub"
             (_Operand imL) (_Operand imI) w0).
  - reflexivity.
  - simpl. tauto.
  - simpl. tauto.
  - reflexivity.
  - reflexivity.
  - simpl. lia.
  - simpl. lia.
Defined.

Lemma operand_with_number_witness :
  observe (lift_result (binary_method Sub (_Operand imL)
                          (VNum (NInt 3)) w0)) =
    Ok (VImage (Image.mk 5 "I" (4, 3)), Some 4)
  /\ observe (lift_result (__rsub__ (_Operand imL) (VNum (NInt 3)) w0)) =
    Ok (VImage (Image.mk 5 "I" (4, 3)), Some (-4))
  /\ observe (lift_result (binary_method Mult (_Operand imF)
                             (VNum (NFloat 3 1)) w0)) =
    Ok (VImage (Image.mk 4 "F" (2, 5)), Some 54).
Proof.
  destruct (operand_with_number (_Operand imL) (NInt 3) Sub w0
              ltac:(simpl; tauto) ltac:(simpl; lia) ltac:(simpl; lia))
    as [Hl Hr].
  destruct (operand_with_number (_Operand imF) (NFloat 3 1) Mult w0
              ltac:(simpl; tauto) ltac:(simpl; lia) eq_refl)
    as [Hf _].
  split; [|split].
  - rewrite Hl. reflexivity.
  - rewrite (Hr __rsub__ eq_refl). reflexivity.
  - rewrite Hf. reflexivity.
Defined.

Lemma unary_operator_result_witness :
  observe (lift_result (apply (_Operand imL) "neg" (VOperand (_Operand imL))
                          None None w0)) =
    Ok (VImage (Image.mk 4 "I" (4, 3)), Some (-7))
  /\ observe (lift_result (apply (_Operand imF) "invert" (VOperand (_Operand imF))
                             None None w0)) =
    Raise (TypeError "bad operand type for 'invert'").
Proof.
  split.
  - rewrite (unary_operator_result (_Operand imL) "neg" (_Operand imL) w0).
    + reflexivity.
    + simpl. tauto.
    + simpl. lia.
  - rewrite (unary_operator_result (_Operand imF) "invert" (_Operand imF) w0).
    + reflexivity.
    + simpl. tauto.
    + simpl. lia.
Defined.

Lemma allowed_expression_is_executed_witness :
  eval (EBinary Mult (EName "x") (ECall (EName "float") [EName "y"]))
       [("x", PImage imF); ("y", PImage imL)] [] w0 =
  bind (builtins_eval
          (EBinary Mult (EName "x") (ECall (EName "float") [EName "y"]))
          eval_globals (build_args [("x", PImage imF); ("y", PImage imL)] []))
       unwrap w0.
Proof.
  apply allowed_expression_is_executed.
  - vm_compute. reflexivity.
  - intros x Hx. left.
    inversion Hx as [| | | |? ? ? ? ? Hl|? ? ? ? ? Hr| | | | |]; subst.
    + inversion Hl; subst. vm_compute. eauto.
    + inversion Hr as [| | | | | | | |? ? ? ? Hf|? ? ? ? ? Hin Ha|]; subst.
      * inversion Hf; subst. vm_compute. eauto.
      * destruct Hin as [<-|[]]. inversion Ha; subst. vm_compute. eauto.
Defined.

Lemma first_forbidden_key_is_reported_witness :
  eval (EName "x") [("x", PImage imL); ("exec", PNum (NInt 1))]
       [("a__b", PNum (NInt 2))] w0 =
  (Raise (ValueError "'exec' not allowed"), w0).
Proof.
  apply (first_forbidden_key_is_reported _ _ _ w0 ["x"] "exec" ["a__b"]).
  - reflexivity.
  - repeat constructor.
  - vm_compute. reflexivity.
Defined.


Lemma keyword_binding_wins_witness :
  eval (EName "x") [("x", PImage imL)] [("x", PImage imF)] w0 =
  (Ok (VImage imF), w0).
Proof.
  apply (keyword_binding_wins "x" (PImage imF)).
  - vm_compute. reflexivity.
  - simpl. repeat constructor. apply not_elem_of_nil.
  - simpl. tauto.
Defined.


(** With an attribute access the store is not kept: the expression
    [x.im.close()], with the names [im] and [close] bound so that the scan
    lets them through, reaches a method of the caller's image, and nothing
    is known of the store afterwards. *)
Lemma attribute_access_leaves_the_fragment :
  attribute_free (ECall (EAttr (EAttr (EName "x") "im") "close") []) = false
  /\ scan (build_args [("x", PImage imL); ("im", PNum (NInt 0));
                       ("close", PNum (NInt 0))] [])
          (compile (ECall (EAttr (EAttr (EName "x") "im") "close") [])) = Ok tt
  /\ eval (ECall (EAttr (EAttr (EName "x") "im") "close") [])
          [("x", PImage imL); ("im", PNum (NInt 0)); ("close", PNum (NInt 0))]
          [] w0 =
     (Raise unmodelled, World [] []).
Proof. repeat split; vm_compute; reflexivity. Qed.

Lemma eval_never_returns_operand_witness :
  eval (EUnary USub (EName "x")) [("x", PImage imL)] [] w0 =
    (Ok (VImage (Image.mk 4 "I" (4, 3))),
     World [7; 9; -5; 7; -7] [("neg_I", 4%nat, [3%nat])])
  /\ VImage (Image.mk 4 "I" (4, 3)) <> VOperand (_Operand (Image.mk 4 "I" (4, 3))).
Proof.
  split; [vm_compute; reflexivity|].
  eapply (eval_never_returns_operand (EUnary USub (EName "x"))
            [("x", PImage imL)] [] w0).
  vm_compute. reflexivity.
Defined.

Lemma comparison_with_number_on_the_left_witness :
  eval (ECompare Lt (ENum (NInt 8)) (EName "x")) [("x", PImage imL)] [] w0 =
  eval (ECompare Gt (EName "x") (ENum (NInt 8))) [("x", PImage imL)] [] w0.
Proof.
  apply (comparison_with_number_on_the_left Lt "x" imL).
  - vm_compute. reflexivity.
  - reflexivity.
Defined.

Lemma unary_plus_is_identity_witness :
  eval (EUnary UAdd (EName "x")) [("x", PImage imRGB)] [] w0 =
  (Ok (VImage imRGB), w0).
Proof.
  apply unary_plus_is_identity.
  - vm_compute. reflexivity.
  - reflexivity.
Defined.

Lemma bindings_are_invisible_inside_lambda_witness :
  scan (build_args [("x", PImage imL)] [])
       (compile (ECall (ELambda [] (EName "x")) [])) = Ok tt
  /\ eval (ECall (ELambda [] (EName "x")) []) [("x", PImage imL)] [] w0 =
     (Raise (NameError "x"), w0).
Proof.
  apply (bindings_are_invisible_inside_lambda "x" (PImage imL)).
  - vm_compute. reflexivity.
  - reflexivity.
Defined.

Lemma conversion_helpers_invoke_no_kernel_witness :
  eval (ECall (EName "int") [EName "x"]) [("x", PImage imI)] [] w0 =
    (Ok (VImage (Image.mk 3 "I" (4, 3))), World [7; 9; -5; -5] [])
  /\ eval (ECall (EName "float") [EName "x"]) [("x", PImage imI)] [] w0 =
    (Ok (VImage (Image.mk 3 "F" (4, 3))), World [7; 9; -5; -5] []).
Proof.
  exact (conversion_helpers_invoke_no_kernel "x" imI
           [("x", PImage imI)] [] w0
           ltac:(vm_compute; reflexivity) eq_refl
           ltac:(simpl; tauto)).
Defined.

Lemma abs_calls_the_operand_method_witness :
  build_args [("x", PImage imI)] [] !! "abs" = None
  /\ eval (ECall (EName "abs") [EName "x"]) [("x", PImage imI)] [] w0 =
     lift_result (__abs__ (_Operand imI) w0).
Proof.
  exact (abs_calls_the_operand_method "x" imI [("x", PImage imI)] [] w0
           ltac:(vm_compute; reflexivity) eq_refl).
Defined.

Lemma min_max_route_through_apply_witness :
  eval (ECall (EName "min") [EName "a"; EName "b"])
       [("a", PImage imL); ("b", PImage imI)] [] w0 =
    lift_result (apply (_Operand imL) "min" (VOperand (_Operand imL))
                   (Some (VOperand (_Operand imI))) None w0)
  /\ observe (eval (ECall (EName "min") [EName "a"; EName "b"])
                   [("a", PImage imL); ("b", PImage imI)] [] w0) =
     Ok (VImage (Image.mk 4 "I" (4, 3)), Some (-5)).
Proof.
  destruct (min_max_route_through_apply "a" "b" imL imI
              [("a", PImage imL); ("b", PImage imI)] [] w0
              ltac:(vm_compute; reflexivity) eq_refl eq_refl)
    as [[Emin _] Hpix].
  split; [exact Emin|].
  rewrite (Hpix ltac:(simpl; tauto) ltac:(simpl; tauto) eq_refl eq_refl
                ltac:(simpl; lia) ltac:(simpl; lia) "min" (or_introl eq_refl)).
  reflexivity.
Defined.

Lemma eval_binary_mode_and_size_witness :
  exists out w',
    eval (EBinary Mult (EName "a") (EName "b"))
         [("a", PImage imL); ("b", PImage imF)] [] w0 = (Ok (VImage out), w')
    /\ Image.mode out = "F"
    /\ Image.size out = (2, 3).
Proof.
  exact (eval_binary_mode_and_size Mult "a" "b" imL imF
           [("a", PImage imL); ("b", PImage imF)] [] w0
           ltac:(vm_compute; reflexivity) eq_refl eq_refl
           ltac:(simpl; tauto) ltac:(simpl; tauto)).
Defined.
